(** * Linkbus: the serial inter-processor protocol of the ARDF Foxoring
      transmitter (Arduino-microfox/linkbus.h)

    The header declares the capacity constants, the message identifier
    enumeration and the buffer types of the protocol, and the prototypes of
    the buffer pool, the receiver and the transmitter.  The constants, the
    enumerations and the buffer types below are transcribed from the header.
    The bodies of the declared functions are not part of the header; the
    buffer pool, the frame parser, the message decoder and the transmit
    scheduler are modelled from the protocol specification, and every such
    definition says so. *)

From Stdlib Require Import ZArith Lia Ascii String List Sorted.
From stdpp Require Import base option list strings vector.

(** ** Capacity constants (linkbus.h, lines 33-45) *)

Definition LINKBUS_MAX_MSG_LENGTH : nat := 50.
Definition LINKBUS_MIN_MSG_LENGTH : nat := 2.
Definition LINKBUS_MAX_MSG_FIELD_LENGTH : nat := 10.
Definition LINKBUS_MAX_MSG_NUMBER_OF_FIELDS : nat := 3.
Definition LINKBUS_NUMBER_OF_RX_MSG_BUFFERS : nat := 2.
Definition LINKBUS_MAX_TX_MSG_LENGTH : nat := 41.
Definition LINKBUS_NUMBER_OF_TX_MSG_BUFFERS : nat := 4.

Definition LINKBUS_MAX_COMMANDLINE_LENGTH : nat :=
  (1 + LINKBUS_MAX_MSG_FIELD_LENGTH) * LINKBUS_MAX_MSG_NUMBER_OF_FIELDS.

Definition LINKBUS_POWERUP_DELAY_SECONDS : nat := 6.

Definition LINKBUS_MIN_TX_INTERVAL_MS : Z := 100%Z.

(** [UINT16_MAX] of <stdint.h>. *)
Definition UINT16_MAX : Z := (2 ^ 16 - 1)%Z.

(** ** Enumerations *)

Inductive BufferState := EMPTY_BUFF | FULL_BUFF.

Global Instance BufferState_eq_dec : EqDecision BufferState.
Proof. solve_decision. Defined.

(** A character constant of C, promoted to an integer: the character's
    code.  For the ASCII characters, below 0x80, that is the value of the
    constant whether plain [char] is signed or unsigned; a statement that
    depends on the value of a character outside the letters is made for
    that range. *)
Definition chr (c : ascii) : Z := Z.of_nat (nat_of_ascii c).
Arguments chr c%_char.

Inductive LBMessageID :=
  | MESSAGE_EMPTY
  | MESSAGE_CLOCK_CAL
  | MESSAGE_FACTORY_RESET
  | MESSAGE_OVERRIDE_DIP
  | MESSAGE_LEDS
  | MESSAGE_TEMP
  | MESSAGE_SET_STATION_ID
  | MESSAGE_GO
  | MESSAGE_CODE_SPEED
  | MESSAGE_STARTTONES_ENABLE
  | MESSAGE_TRANSMITTER_ENABLE
  | MESSAGE_RESET
  | MESSAGE_VERSION
  | INVALID_MESSAGE.

Global Instance LBMessageID_eq_dec : EqDecision LBMessageID.
Proof. solve_decision. Defined.

(** The integer each enumerator stands for, with the initialisers of the
    header. *)
Definition LBMessageID_value (id : LBMessageID) : Z :=
  (match id with
  | MESSAGE_EMPTY => 0
  | MESSAGE_CLOCK_CAL => chr "C" * 100 + chr "A" * 10 + chr "L"
  | MESSAGE_FACTORY_RESET => chr "F" * 100 + chr "A" * 10 + chr "C"
  | MESSAGE_OVERRIDE_DIP => chr "D" * 100 + chr "I" * 10 + chr "P"
  | MESSAGE_LEDS => chr "L" * 100 + chr "E" * 10 + chr "D"
  | MESSAGE_TEMP => chr "T" * 100 + chr "E" * 10 + chr "M"
  | MESSAGE_SET_STATION_ID => chr "I" * 10 + chr "D"
  | MESSAGE_GO => chr "G" * 10 + chr "O"
  | MESSAGE_CODE_SPEED => chr "S" * 100 + chr "P" * 10 + chr "D"
  | MESSAGE_STARTTONES_ENABLE => chr "S" * 100 + chr "T" * 10 + chr "A"
  | MESSAGE_TRANSMITTER_ENABLE => chr "T" * 100 + chr "X" * 10 + chr "E"
  | MESSAGE_RESET => chr "R" * 100 + chr "S" * 10 + chr "T"
  | MESSAGE_VERSION => chr "V" * 100 + chr "E" * 10 + chr "R"
  | INVALID_MESSAGE => UINT16_MAX
  end)%Z.

Inductive LBMessageType :=
  | LINKBUS_MSG_UNKNOWN
  | LINKBUS_MSG_COMMAND
  | LINKBUS_MSG_QUERY
  | LINKBUS_MSG_REPLY
  | LINKBUS_MSG_INVALID.

Global Instance LBMessageType_eq_dec : EqDecision LBMessageType.
Proof. solve_decision. Defined.

Definition LBMessageType_value (t : LBMessageType) : Z :=
  (match t with
  | LINKBUS_MSG_UNKNOWN => 0
  | LINKBUS_MSG_COMMAND => 1
  | LINKBUS_MSG_QUERY => 2
  | LINKBUS_MSG_REPLY => 3
  | LINKBUS_MSG_INVALID => 4
  end)%Z.

Inductive LBMessageField := FIELD1 | FIELD2 | FIELD3.

Definition LBMessageField_value (f : LBMessageField) : nat :=
  match f with FIELD1 => 0 | FIELD2 => 1 | FIELD3 => 2 end.

(** ** The mnemonic encoding

    Every initialiser of [LBMessageID] follows one pattern: a mnemonic of
    three characters a, b, c stands for a*100 + b*10 + c, one of two
    characters a, b for a*10 + b.  [mnemonic_code] is that pattern as a
    function of the mnemonic's text; other lengths have no encoding. *)

Definition mnemonic_code (m : string) : option Z :=
  match list_ascii_of_string m with
  | [a; b] => Some (chr a * 10 + chr b)%Z
  | [a; b; c] => Some (chr a * 100 + chr b * 10 + chr c)%Z
  | _ => None
  end.

Definition is_upper (c : ascii) : bool :=
  (chr "A" <=? chr c)%Z && (chr c <=? chr "Z")%Z.

(** A legal mnemonic: two or three uppercase ASCII letters. *)
Definition is_mnemonic (m : string) : bool :=
  let cs := list_ascii_of_string m in
  ((length cs =? 2) || (length cs =? 3)) && forallb is_upper cs.

(** The fixed mapping of mnemonic to message identifier: one entry per
    enumerator that has a mnemonic, in the order of the header. *)
Definition mnemonic_table : list (string * LBMessageID) :=
  [ ("CAL"%string, MESSAGE_CLOCK_CAL);
    ("FAC"%string, MESSAGE_FACTORY_RESET);
    ("DIP"%string, MESSAGE_OVERRIDE_DIP);
    ("LED"%string, MESSAGE_LEDS);
    ("TEM"%string, MESSAGE_TEMP);
    ("ID"%string, MESSAGE_SET_STATION_ID);
    ("GO"%string, MESSAGE_GO);
    ("SPD"%string, MESSAGE_CODE_SPEED);
    ("STA"%string, MESSAGE_STARTTONES_ENABLE);
    ("TXE"%string, MESSAGE_TRANSMITTER_ENABLE);
    ("RST"%string, MESSAGE_RESET);
    ("VER"%string, MESSAGE_VERSION) ].

Definition table_mnemonics : list string := mnemonic_table.*1.

(** ** Buffer types (linkbus.h, lines 146-153) *)

(** [char fields[LINKBUS_MAX_MSG_NUMBER_OF_FIELDS][LINKBUS_MAX_MSG_FIELD_LENGTH]] *)
Definition FieldArray : Type :=
  vec (vec ascii LINKBUS_MAX_MSG_FIELD_LENGTH) LINKBUS_MAX_MSG_NUMBER_OF_FIELDS.

Record LinkbusRxBuffer := mkRxBuffer {
  rx_type : LBMessageType;
  rx_id : LBMessageID;
  rx_fields : FieldArray
}.

(** ** Buffer pool

    The header declares [nextEmptyRxBuffer], [nextFullRxBuffer],
    [nextEmptyTxBuffer] and [nextFullTxBuffer]; their bodies are not in it. *)

Section BufferPool.
Context {A : Type}.

(** Modelled from the spec: a pool slot (the slot storage, not in linkbus.h).
    A slot holds its payload and is tagged Empty or Full; [slot_seq] is the
    commit number that makes "the oldest slot marked Full" meaningful. *)
Record Slot := mkSlot {
  slot_state : BufferState;
  slot_seq : nat;
  slot_data : A
}.

(** Modelled from the spec: the pool (not in linkbus.h), a fixed array of
    slots and the number the next commit is given. *)
Record Pool := mkPool {
  pool_slots : list Slot;
  pool_next_seq : nat
}.

(** Modelled from the spec: the pool at system start (not in linkbus.h),
    [n] slots, all Empty. *)
Definition pool_init (n : nat) (d : A) : Pool :=
  mkPool (replicate n (mkSlot EMPTY_BUFF 0 d)) 0.

(** Modelled from the spec: the result of a request for an Empty slot
    (not in linkbus.h): the handle of a slot, or the failure
    BufferExhausted, with no slot returned. *)
Inductive Acquire := Acquired (h : nat) | BufferExhausted.

(** Modelled from the spec: the body of [nextEmptyRxBuffer] and
    [nextEmptyTxBuffer] (not in linkbus.h): "returns a handle to the next
    slot in pool order whose state is Empty, or fails with BufferExhausted
    if none exists". *)
Definition acquire_empty (p : Pool) : Acquire :=
  match list_find (fun s => slot_state s = EMPTY_BUFF) (pool_slots p) with
  | Some (h, _) => Acquired h
  | None => BufferExhausted
  end.

(** Modelled from the spec: filling a claimed slot (not in linkbus.h). *)
Definition write (h : nat) (x : A) (p : Pool) : Pool :=
  mkPool (alter (fun s => mkSlot (slot_state s) (slot_seq s) x) h (pool_slots p))
         (pool_next_seq p).

(** Modelled from the spec: [commit] (not in linkbus.h), "marks a filled
    slot Full"; the slot takes the next commit number. *)
Definition commit (h : nat) (p : Pool) : Pool :=
  mkPool (alter (fun s => mkSlot FULL_BUFF (pool_next_seq p) (slot_data s)) h
                (pool_slots p))
         (S (pool_next_seq p)).

(** Modelled from the spec: [release] (not in linkbus.h), "resets a slot
    to Empty". *)
Definition release (h : nat) (p : Pool) : Pool :=
  mkPool (alter (fun s => mkSlot EMPTY_BUFF (slot_seq s) (slot_data s)) h
                (pool_slots p))
         (pool_next_seq p).

(** Modelled from the spec: the search for "the oldest slot marked Full"
    (not in linkbus.h): the entry with the least commit number, the earlier
    one on a tie. *)
Fixpoint oldest (l : list (nat * Slot)) : option (nat * Slot) :=
  match l with
  | [] => None
  | e :: l' =>
      match oldest l' with
      | Some e' => if decide (slot_seq e.2 <= slot_seq e'.2) then Some e else Some e'
      | None => Some e
      end
  end.

(** The Full slots of the pool with their indices, in pool order. *)
Definition full_slots (p : Pool) : list (nat * Slot) :=
  filter (fun e => slot_state e.2 = FULL_BUFF) (imap pair (pool_slots p)).

(** Modelled from the spec: the body of [nextFullRxBuffer] and
    [nextFullTxBuffer] (not in linkbus.h): "returns the oldest slot marked
    Full (FIFO), or None if none is ready". *)
Definition acquire_full (p : Pool) : option nat :=
  fst <$> oldest (full_slots p).

(** Modelled from the spec: a producer's use of the pool (not in linkbus.h):
    it "claims an Empty slot, writes text, marks Full"; with no Empty slot the
    operation fails and nothing changes. *)
Definition pool_put (x : A) (p : Pool) : Acquire * Pool :=
  match acquire_empty p with
  | Acquired h => (Acquired h, commit h (write h x p))
  | BufferExhausted => (BufferExhausted, p)
  end.

(** Modelled from the spec: a consumer's use of the pool (not in linkbus.h):
    it takes the oldest Full slot, reads it and resets it to Empty. *)
Definition pool_take (p : Pool) : option (A * Pool) :=
  match acquire_full p with
  | Some h =>
      match pool_slots p !! h with
      | Some s => Some (slot_data s, release h p)
      | None => None
      end
  | None => None
  end.

(** What the consumer reads in [n] successive takes. *)
Fixpoint drain (n : nat) (p : Pool) : list A :=
  match n with
  | 0 => []
  | S n' =>
      match pool_take p with
      | Some (x, p') => x :: drain n' p'
      | None => []
      end
  end.

(** Successive producer requests with no release in between, and their
    outcomes. *)
Fixpoint put_all (xs : list A) (p : Pool) : list Acquire * Pool :=
  match xs with
  | [] => ([], p)
  | x :: xs' =>
      let '(r, p1) := pool_put x p in
      let '(rs, p2) := put_all xs' p1 in
      (r :: rs, p2)
  end.

(** The commit number of slot [h]. *)
Definition slot_seq_of (p : Pool) (h : nat) : nat :=
  from_option slot_seq 0 (pool_slots p !! h).

(** Slot [h] exists and is Full. *)
Definition slot_full (p : Pool) (h : nat) : Prop :=
  exists s, pool_slots p !! h = Some s /\ slot_state s = FULL_BUFF.

(** The pool [p] holds exactly the slots [q] Full, committed in the order
    of [q], all before the next commit number. *)
Definition queue_of (p : Pool) (q : list nat) : Prop :=
  (forall h, h ∈ q <-> slot_full p h) /\
  StronglySorted (fun a b => slot_seq_of p a < slot_seq_of p b) q /\
  Forall (fun h => slot_seq_of p h < pool_next_seq p) q.

(** The first [k] of the [n] slots of [p] are Full, the others Empty. *)
Definition filled (k n : nat) (p : Pool) : Prop :=
  length (pool_slots p) = n /\
  forall i s, pool_slots p !! i = Some s -> (slot_state s = FULL_BUFF <-> i < k).

End BufferPool.

Arguments Slot : clear implicits.
Arguments Pool : clear implicits.

(** [LinkbusTxBuffer]: [char[LINKBUS_MAX_TX_MSG_LENGTH]], a C string. *)
Definition LinkbusTxBuffer : Type := string.

Definition NUL : ascii := Ascii.zero.

Definition empty_rx_buffer : LinkbusRxBuffer :=
  mkRxBuffer LINKBUS_MSG_UNKNOWN MESSAGE_EMPTY (vreplicate _ (vreplicate _ NUL)).

Definition rx_pool_init : Pool LinkbusRxBuffer :=
  pool_init LINKBUS_NUMBER_OF_RX_MSG_BUFFERS empty_rx_buffer.

Definition tx_pool_init : Pool LinkbusTxBuffer :=
  pool_init LINKBUS_NUMBER_OF_TX_MSG_BUFFERS EmptyString.

Definition nextEmptyRxBuffer (p : Pool LinkbusRxBuffer) : Acquire := acquire_empty p.
Definition nextFullRxBuffer (p : Pool LinkbusRxBuffer) : option nat := acquire_full p.
Definition nextFullTxBuffer (p : Pool LinkbusTxBuffer) : option nat := acquire_full p.

(** ** Frame parser

    The receiver is declared through [linkbus_init], [linkbus_reset_rx],
    [linkbus_disable] and [linkbus_enable]; the byte handler itself is not
    in the header. *)

Definition is_sigil (c : ascii) : bool := (c =? "$")%char || (c =? "!")%char.
Definition is_terminator (c : ascii) : bool := (c =? ";")%char || (c =? "?")%char.

(** Backspace and delete. *)
Definition is_erase (c : ascii) : bool := (c =? "008")%char || (c =? "127")%char.

(** Modelled from the spec: the state of the frame parser (not in linkbus.h).
    Idle, or Accumulating with the recorded sigil and the commandline buffer;
    Complete is passed through while the terminator is handled, the parser
    being back in Idle when the byte is done. *)
Inductive ParserState :=
  | Idle
  | Accumulating (sigil : ascii) (commandline : list ascii).

(** Modelled from the spec: what handling one byte does besides changing
    the state (not in linkbus.h): a store into the commandline buffer at an
    index, a completed line handed to the decoder with its sigil and
    terminator, or an overlong line discarded as Invalid. *)
Inductive ParserEvent :=
  | BufferWrite (index : nat) (c : ascii)
  | LineComplete (sigil : ascii) (commandline : list ascii) (terminator : ascii)
  | LineInvalid.

(** Modelled from the spec: one byte through the frame parser (the receive
    handler, not in linkbus.h).  A sigil starts or restarts accumulation; a
    terminator ends the line; an erase character removes the last accumulated
    character if present; any other byte is appended while the buffer holds
    fewer than LINKBUS_MAX_COMMANDLINE_LENGTH characters and otherwise forces
    the Invalid outcome and the return to Idle.  The optional echo does not
    touch the parser and is left out. *)
Definition parser_step (st : ParserState) (c : ascii)
  : ParserState * list ParserEvent :=
  match st with
  | Idle =>
      if is_sigil c then (Accumulating c [], []) else (Idle, [])
  | Accumulating s buf =>
      if is_sigil c then (Accumulating c [], [])
      else if is_terminator c then (Idle, [LineComplete s buf c])
      else if is_erase c then (Accumulating s (removelast buf), [])
      else if length buf <? LINKBUS_MAX_COMMANDLINE_LENGTH
           then (Accumulating s (buf ++ [c]), [BufferWrite (length buf) c])
           else (Idle, [LineInvalid])
  end.

Fixpoint parser_run (st : ParserState) (bytes : list ascii)
  : ParserState * list ParserEvent :=
  match bytes with
  | [] => (st, [])
  | c :: cs =>
      let '(st1, ev1) := parser_step st c in
      let '(st2, ev2) := parser_run st1 cs in
      (st2, ev1 ++ ev2)
  end.

(** Modelled from the spec: [linkbus_reset_rx] (not in linkbus.h), which
    "discards any partial accumulation and returns to Idle". *)
Definition linkbus_reset_rx (st : ParserState) : ParserState := Idle.

Definition commandline_length (st : ParserState) : nat :=
  match st with Idle => 0 | Accumulating _ buf => length buf end.

(** A byte that is appended when it arrives during accumulation. *)
Definition is_data (c : ascii) : bool :=
  negb (is_sigil c) && negb (is_terminator c) && negb (is_erase c).

Definition write_in_bounds (e : ParserEvent) : Prop :=
  match e with
  | BufferWrite i _ => i < LINKBUS_MAX_COMMANDLINE_LENGTH
  | _ => True
  end.

(** The stores of a run of data bytes: the first at index [k], the next at
    the index after, and so on. *)
Definition writes_from (k : nat) (data : list ascii) : list ParserEvent :=
  imap (fun i c => BufferWrite (k + i) c) data.

(** ** Message decoder *)

(** Modelled from the spec: the splitting rule of the decoder (not in
    linkbus.h), "text is split on [,]". *)
Fixpoint split_fields (cs : list ascii) : list (list ascii) :=
  match cs with
  | [] => [[]]
  | c :: cs' =>
      if (c =? ",")%char then [] :: split_fields cs'
      else match split_fields cs' with
           | t :: ts => (c :: t) :: ts
           | [] => [[c]]
           end
  end.

(** Modelled from the spec: identifier resolution (not in linkbus.h), "the
    mnemonic is matched (case-sensitive, uppercase) against the fixed
    mapping of mnemonic to message identifier". *)
Fixpoint lookup_mnemonic (t : list (string * LBMessageID)) (m : string)
  : option LBMessageID :=
  match t with
  | [] => None
  | (k, id) :: t' => if String.eqb k m then Some id else lookup_mnemonic t' m
  end.

(** Modelled from the spec: type resolution (not in linkbus.h): [$] with [;]
    is a Command, [$] with [?] a Query, [!] a Reply whatever the terminator. *)
Definition message_type (sigil terminator : ascii) : LBMessageType :=
  if (sigil =? "$")%char then
    if (terminator =? ";")%char then LINKBUS_MSG_COMMAND
    else if (terminator =? "?")%char then LINKBUS_MSG_QUERY
    else LINKBUS_MSG_INVALID
  else if (sigil =? "!")%char then LINKBUS_MSG_REPLY
  else LINKBUS_MSG_INVALID.

(** Modelled from the spec: filling a field (not in linkbus.h).  A field of
    at most 9 characters is stored as a C string in its 10-character array:
    the characters, then NUL up to the end. *)
Definition store_field (f : list ascii) : vec ascii LINKBUS_MAX_MSG_FIELD_LENGTH :=
  fun_to_vec (fun i => nth (fin_to_nat i) f NUL).

Definition store_fields (fs : list (list ascii)) : FieldArray :=
  fun_to_vec (fun i => store_field (nth (fin_to_nat i) fs [])).

(** The C string held by a field: the characters before the first NUL. *)
Fixpoint c_string (cs : list ascii) : list ascii :=
  match cs with
  | [] => []
  | c :: cs' => if (c =? NUL)%char then [] else c :: c_string cs'
  end.



(** Modelled from the spec: the result of decoding a line (not in linkbus.h):
    a message for an Rx slot, or a malformed line. *)
Inductive Decoded :=
  | Message (m : LinkbusRxBuffer)
  | MalformedLine.

(** Modelled from the spec: the decoder proper (not in linkbus.h).  The
    first token is the mnemonic, the others the fields.  A line outside
    [LINKBUS_MIN_MSG_LENGTH, LINKBUS_MAX_MSG_LENGTH], with more than
    LINKBUS_MAX_MSG_NUMBER_OF_FIELDS fields, or with a field longer than
    LINKBUS_MAX_MSG_FIELD_LENGTH - 1 is malformed (invalidated, not
    truncated).  "Unmatched mnemonics produce Invalid type with Invalid
    identifier value", as a message of their own. *)
Definition decode_line (sigil : ascii) (text : list ascii) (terminator : ascii)
  : Decoded :=
  match split_fields text with
  | [] => MalformedLine
  | m :: fs =>
      if (length text <? LINKBUS_MIN_MSG_LENGTH)
         || (LINKBUS_MAX_MSG_LENGTH <? length text)
         || (LINKBUS_MAX_MSG_NUMBER_OF_FIELDS <? length fs)
         || existsb (fun f => LINKBUS_MAX_MSG_FIELD_LENGTH - 1 <? length f) fs
      then MalformedLine
      else
        match lookup_mnemonic mnemonic_table (string_of_list_ascii m) with
        | Some id =>
            Message (mkRxBuffer (message_type sigil terminator) id (store_fields fs))
        | None =>
            Message (mkRxBuffer LINKBUS_MSG_INVALID INVALID_MESSAGE (store_fields fs))
        end
  end.

(** Modelled from the spec: what becomes of a decoded line (not in linkbus.h):
    committed to a slot, dropped with BufferExhausted reported, or discarded
    as malformed. *)
Inductive DecodeOutcome :=
  | Committed (h : nat)
  | DroppedBufferExhausted
  | DiscardedMalformed.

(** Modelled from the spec: the output step of the decoder (not in linkbus.h):
    it "claims an Empty Rx slot via the Buffer Pool, fills type, id, fields,
    commits it Full.  If no Empty slot is available, the message is dropped
    and a BufferExhausted condition is reported"; a malformed line is
    discarded and no Rx slot is consumed. *)
Definition decode (sigil : ascii) (text : list ascii) (terminator : ascii)
    (p : Pool LinkbusRxBuffer) : DecodeOutcome * Pool LinkbusRxBuffer :=
  match decode_line sigil text terminator with
  | MalformedLine => (DiscardedMalformed, p)
  | Message m =>
      match pool_put m p with
      | (Acquired h, p') => (Committed h, p')
      | (BufferExhausted, p') => (DroppedBufferExhausted, p')
      end
  end.

(** The wire format: a sigil, a mnemonic of two or three uppercase letters,
    at most three fields of at most nine characters, a terminator, within
    the message length limits. *)
Definition well_framed (sigil : ascii) (text : list ascii) (terminator : ascii)
  : bool :=
  is_sigil sigil && is_terminator terminator
  && (LINKBUS_MIN_MSG_LENGTH <=? length text)
  && (length text <=? LINKBUS_MAX_MSG_LENGTH)
  && match split_fields text with
     | m :: fs =>
         is_mnemonic (string_of_list_ascii m)
         && (length fs <=? LINKBUS_MAX_MSG_NUMBER_OF_FIELDS)
         && forallb (fun f => length f <=? LINKBUS_MAX_MSG_FIELD_LENGTH - 1) fs
     | [] => false
     end.

Definition mnemonic_of (text : list ascii) : string :=
  match split_fields text with
  | m :: _ => string_of_list_ascii m
  | [] => EmptyString
  end.

(** Modelled from the spec: the receiver (not in linkbus.h), the frame
    parser feeding the decoder, which fills the Rx pool. *)
Record Receiver := mkReceiver {
  rcv_parser : ParserState;
  rcv_pool : Pool LinkbusRxBuffer
}.

Definition receiver_init : Receiver := mkReceiver Idle rx_pool_init.

Inductive RxReport :=
  | LineDecoded (o : DecodeOutcome)
  | Overlong.

(** Completed lines go to the decoder, in order. *)
Fixpoint deliver (evs : list ParserEvent) (p : Pool LinkbusRxBuffer)
  : list RxReport * Pool LinkbusRxBuffer :=
  match evs with
  | [] => ([], p)
  | LineComplete s text t :: evs' =>
      let '(o, p1) := decode s text t p in
      let '(rs, p2) := deliver evs' p1 in
      (LineDecoded o :: rs, p2)
  | LineInvalid :: evs' =>
      let '(rs, p2) := deliver evs' p in (Overlong :: rs, p2)
  | BufferWrite _ _ :: evs' => deliver evs' p
  end.

(** Modelled from the spec: the receive path, one byte at a time (not in
    linkbus.h): "on terminator, the line is handed to the Message Decoder". *)
Definition receive_byte (r : Receiver) (c : ascii) : Receiver * list RxReport :=
  let '(st, evs) := parser_step (rcv_parser r) c in
  let '(rs, p) := deliver evs (rcv_pool r) in
  (mkReceiver st p, rs).

Fixpoint receive (r : Receiver) (bytes : list ascii) : Receiver * list RxReport :=
  match bytes with
  | [] => (r, [])
  | c :: cs =>
      let '(r1, rs1) := receive_byte r c in
      let '(r2, rs2) := receive r1 cs in
      (r2, rs1 ++ rs2)
  end.

(** ** Transmit scheduler

    The header declares [linkbus_end_tx] and [linkbusTxInProgress] and the
    constant LINKBUS_MIN_TX_INTERVAL_MS; the scheduler's body is not in it.
    Time is the millisecond clock, an integer. *)

(** Modelled from the spec: the state of the transmit scheduler (not in
    linkbus.h): the Tx pool, the slot in flight if any, the time the last
    transmission started, and the "last transmission" timestamp recorded on
    completion. *)
Record Transmitter := mkTransmitter {
  tx_pool : Pool LinkbusTxBuffer;
  tx_in_flight : option nat;
  tx_last_start : option Z;
  tx_last_done : option Z
}.

Definition transmitter_init : Transmitter :=
  mkTransmitter tx_pool_init None None None.

(** Modelled from the spec: the outcome of [try_send_next] (not in linkbus.h):
    Sent, with the slot and the text put on the line, Throttled, or Idle when
    no data is pending. *)
Inductive TransmitOutcome :=
  | Sent (h : nat) (text : LinkbusTxBuffer)
  | Throttled
  | IdleNoData.

(** Modelled from the spec: [linkbusTxInProgress] (not in linkbus.h). *)
Definition linkbusTxInProgress (t : Transmitter) : bool :=
  match tx_in_flight t with Some _ => true | None => false end.

(** Modelled from the spec: the pacing test of [try_send_next] (not in
    linkbus.h): "the elapsed time since the last transmission start exceeds
    the minimum interval"; before the first transmission there is nothing to
    wait for. *)
Definition interval_elapsed (t : Transmitter) (now : Z) : bool :=
  match tx_last_start t with
  | Some t0 => (LINKBUS_MIN_TX_INTERVAL_MS <? now - t0)%Z
  | None => true
  end.

(** Modelled from the spec: [try_send_next] (not in linkbus.h): "if no
    transmission is currently in flight and the elapsed time since the last
    transmission start exceeds the minimum interval, acquires the oldest Full
    Tx slot (if any), begins physical transmission, and returns Sent;
    otherwise returns Throttled or Idle (no data pending)". *)
Definition try_send_next (now : Z) (t : Transmitter)
  : TransmitOutcome * Transmitter :=
  if linkbusTxInProgress t then (Throttled, t)
  else if negb (interval_elapsed t now) then (Throttled, t)
  else
    match nextFullTxBuffer (tx_pool t) with
    | Some h =>
        match pool_slots (tx_pool t) !! h with
        | Some s =>
            (Sent h (slot_data s),
             mkTransmitter (tx_pool t) (Some h) (Some now) (tx_last_done t))
        | None => (IdleNoData, t)
        end
    | None => (IdleNoData, t)
    end.

(** Modelled from the spec: [linkbus_end_tx] (not in linkbus.h): "on
    physical transmission completion, the slot is released back to Empty and
    the last transmission timestamp is recorded". *)
Definition linkbus_end_tx (now : Z) (t : Transmitter) : Transmitter :=
  match tx_in_flight t with
  | Some h =>
      mkTransmitter (release h (tx_pool t)) None (tx_last_start t) (Some now)
  | None => t
  end.

(** Modelled from the spec: the producer side of the Tx pool (not in
    linkbus.h): it "claims an Empty slot, writes text, marks Full". *)
Definition tx_enqueue (text : LinkbusTxBuffer) (t : Transmitter)
  : Acquire * Transmitter :=
  let '(r, p) := pool_put text (tx_pool t) in
  (r, mkTransmitter p (tx_in_flight t) (tx_last_start t) (tx_last_done t)).

(** What happens to the transmitter: a producer commits a text, the
    scheduler is polled at a time, a physical transmission completes at a
    time. *)
Inductive TxEvent :=
  | Enqueue (text : LinkbusTxBuffer)
  | Tick (now : Z)
  | EndTx (now : Z).

Inductive TxReport :=
  | Queued (h : nat) (text : LinkbusTxBuffer)
  | Refused (text : LinkbusTxBuffer)
  | Polled (now : Z) (o : TransmitOutcome)
  | Completed (now : Z).

Definition tx_step (t : Transmitter) (e : TxEvent) : Transmitter * TxReport :=
  match e with
  | Enqueue text =>
      match tx_enqueue text t with
      | (Acquired h, t') => (t', Queued h text)
      | (BufferExhausted, t') => (t', Refused text)
      end
  | Tick now =>
      let '(o, t') := try_send_next now t in (t', Polled now o)
  | EndTx now => (linkbus_end_tx now t, Completed now)
  end.

Fixpoint tx_run (t : Transmitter) (evs : list TxEvent)
  : Transmitter * list TxReport :=
  match evs with
  | [] => (t, [])
  | e :: evs' =>
      let '(t1, r) := tx_step t e in
      let '(t2, rs) := tx_run t1 evs' in
      (t2, r :: rs)
  end.

(** The texts marked Full, in commit order. *)
Definition committed (rs : list TxReport) : list LinkbusTxBuffer :=
  omap (fun r => match r with Queued _ text => Some text | _ => None end) rs.

(** The texts whose physical transmission started, in start order. *)
Definition started (rs : list TxReport) : list LinkbusTxBuffer :=
  omap (fun r => match r with Polled _ (Sent _ text) => Some text | _ => None end) rs.

(** The slots whose physical transmission started, in start order. *)
Definition started_slots (rs : list TxReport) : list nat :=
  omap (fun r => match r with Polled _ (Sent h _) => Some h | _ => None end) rs.

(** The times at which a physical transmission started, in start order. *)
Definition start_times (rs : list TxReport) : list Z :=
  omap (fun r => match r with Polled now (Sent _ _) => Some now | _ => None end) rs.

(** The readings of the clock along a run. *)
Definition event_times (evs : list TxEvent) : list Z :=
  omap (fun e => match e with Enqueue _ => None | Tick now | EndTx now => Some now end) evs.

(** The clock never runs backwards. *)
Definition clock_monotone (evs : list TxEvent) : Prop :=
  StronglySorted Z.le (event_times evs).

(** Successive starts, the first after [prev], are more than the minimum
    interval apart. *)
Fixpoint paced (prev : option Z) (ts : list Z) : Prop :=
  match ts with
  | [] => True
  | t :: ts' =>
      match prev with
      | Some t0 => (LINKBUS_MIN_TX_INTERVAL_MS < t - t0)%Z
      | None => True
      end /\ paced (Some t) ts'
  end.

(** The pending texts of a transmitter: the payloads of its Full slots that
    have not started transmission, oldest first. *)
Definition payloads {A} (p : Pool A) (q : list nat) : list A :=
  omap (fun h => slot_data <$> pool_slots p !! h) q.

Definition tx_pending (t : Transmitter) (pend : list LinkbusTxBuffer) : Prop :=
  exists q, queue_of (tx_pool t) q /\
    match tx_in_flight t with
    | None => pend = payloads (tx_pool t) q
    | Some h => exists q', q = h :: q' /\ pend = payloads (tx_pool t) q'
    end.

(** ** Serial clock (linkbus.h, lines 47-49) *)

Definition FOSC : Z := 16000000%Z.
Definition BAUD : Z := 57600%Z.

(** [#define MYUBRR(b) (FOSC / 16 / (b) - 1)], with the division of C, which
    truncates: the value of the macro in signed arithmetic, as for the
    constant BAUD.  For [b = 0] C leaves the division undefined. *)
Definition MYUBRR (b : Z) : Z := (FOSC ÷ 16 ÷ b - 1)%Z.

(** The macro on an argument of type [uint32_t], the type of the parameter
    of [linkbus_init]: the operands are converted to the unsigned type and
    the subtraction wraps modulo 2^32. *)
Definition MYUBRR_u32 (b : Z) : Z := ((FOSC ÷ 16 ÷ b - 1) mod 2 ^ 32)%Z.

(** [INT16_MAX] of <stdint.h>. *)
Definition INT16_MAX : Z := (2 ^ 15 - 1)%Z.

(** ** Broadcast flags (linkbus.h, lines 129-136) *)

Inductive LBbroadcastType :=
  | BATTERY_BROADCAST
  | RSSI_BROADCAST
  | RF_BROADCAST
  | UPC_TEMP_BROADCAST
  | ALL_BROADCASTS.

Global Instance LBbroadcastType_eq_dec : EqDecision LBbroadcastType.
Proof. solve_decision. Defined.

Definition LBbroadcastType_value (b : LBbroadcastType) : Z :=
  (match b with
   | BATTERY_BROADCAST => 0x0001
   | RSSI_BROADCAST => 0x0002
   | RF_BROADCAST => 0x0004
   | UPC_TEMP_BROADCAST => 0x0008
   | ALL_BROADCASTS => 0x000FF
   end)%Z.

(** The flags of a list combined with [|]. *)
Definition broadcast_mask (l : list LBbroadcastType) : Z :=
  foldr (fun f m => Z.lor (LBbroadcastType_value f) m) 0%Z l.

(** The test [mask & flag] of C, as a truth value. *)
Definition broadcast_enabled (mask : Z) (f : LBbroadcastType) : bool :=
  negb (Z.land mask (LBbroadcastType_value f) =? 0)%Z.

(** [mask & ~flag]. *)
Definition broadcast_clear (mask : Z) (f : LBbroadcastType) : Z :=
  Z.land mask (Z.lnot (LBbroadcastType_value f)).

(** ** The message format of the header comment (linkbus.h, lines 57-72)

    [$id,f1,f2,... fn;]: the identifier, then each field after a comma,
    between a sigil and a terminator. *)

Definition format_commandline (id : list ascii) (fields : list (list ascii))
  : list ascii :=
  id ++ concat (map (fun f => ","%char :: f) fields).

Definition format_message (sigil : ascii) (id : list ascii)
    (fields : list (list ascii)) (terminator : ascii) : list ascii :=
  sigil :: format_commandline id fields ++ [terminator].

(** The messages the header comment lists (lines 74-86). *)
Definition comment_mnemonics : list string :=
  [ "TST"; "ACK"; "CK0"; "CK1"; "CK2"; "VOL"; "BAT"; "BND"; "S" ]%string.

(** The serial commands README.md lists (lines 11-23). *)
Definition README_commands : list string :=
  [ "CAL"; "FAC"; "DIP"; "LED"; "SYN"; "TEM"; "ID"; "GO"; "RST"; "SPD";
    "STA"; "VER" ]%string.

(** ** Comparing mnemonics *)

(** An ASCII character: its code is below 0x80. *)
Definition is_7bit (c : ascii) : bool := (chr c <? 128)%Z.

(** Two characters less than ten apart. *)
Definition near (c d : ascii) : Prop := (Z.abs (chr c - chr d) < 10)%Z.

(** Two texts that differ in exactly one place. *)
Definition differ_once (l1 l2 : list ascii) : Prop :=
  exists pre x y post, l1 = pre ++ x :: post /\ l2 = pre ++ y :: post /\ x <> y.

(** Two texts of which one is the other with two different characters
    exchanged. *)
Definition transposed (l1 l2 : list ascii) : Prop :=
  exists pre x mid y post,
    l1 = pre ++ x :: mid ++ y :: post /\
    l2 = pre ++ y :: mid ++ x :: post /\ x <> y.

(** ** Theorems *)

Section Encoding.
Local Open Scope Z_scope.

Lemma table_codes_agree :
  Forall (fun e => mnemonic_code e.1 = Some (LBMessageID_value e.2)) mnemonic_table.
Proof. repeat constructor. Qed.

Lemma is_upper_range (c : ascii) :
  is_upper c = true -> 65 <= chr c <= 90.
Proof.
  unfold is_upper. change (chr "A") with 65. change (chr "Z") with 90.
  rewrite andb_true_iff, !Z.leb_le. tauto.
Qed.

(** Every legal mnemonic has an encoding, and it lies between the encodings
    of AA and ZZZ. *)
Lemma mnemonic_code_range (m : string) :
  is_mnemonic m = true ->
  exists v, mnemonic_code m = Some v /\ 715 <= v <= 9990.
Proof.
  unfold is_mnemonic, mnemonic_code.
  destruct (list_ascii_of_string m) as [|a [|b [|c [|d cs]]]]; cbn [length];
    rewrite andb_true_iff; intros [Hlen Hup]; try discriminate Hlen.
  - cbn [forallb] in Hup. rewrite !andb_true_iff in Hup.
    destruct Hup as (Ha & Hb & _).
    apply is_upper_range in Ha, Hb. eexists; split; [reflexivity | lia].
  - cbn [forallb] in Hup. rewrite !andb_true_iff in Hup.
    destruct Hup as (Ha & Hb & Hc & _).
    apply is_upper_range in Ha, Hb, Hc. eexists; split; [reflexivity | lia].
Qed.

(** C4: the encoding of a mnemonic of two or three uppercase letters is never
    the sentinel INVALID_MESSAGE = UINT16_MAX; it is at most 9990, the
    encoding of ZZZ. *)
Theorem mnemonic_code_not_invalid (m : string) :
  is_mnemonic m = true ->
  exists v, mnemonic_code m = Some v /\ v <= 9990 /\
            v <> LBMessageID_value INVALID_MESSAGE.
Proof.
  intros H. destruct (mnemonic_code_range m H) as (v & Hv & Hr).
  exists v. split; [exact Hv|]. split; [lia|].
  change (LBMessageID_value INVALID_MESSAGE) with 65535. lia.
Qed.

Lemma mnemonic_code_not_invalid_witness :
  is_mnemonic "CAL" = true /\
  exists v, mnemonic_code "CAL" = Some v /\ v <= 9990 /\
            v <> LBMessageID_value INVALID_MESSAGE.
Proof.
  split; [reflexivity | apply (mnemonic_code_not_invalid "CAL"); reflexivity].
Defined.

(** C10: MESSAGE_EMPTY = 0 is the encoding of no mnemonic of two or three
    uppercase letters: every such encoding is at least 715, the encoding of
    AA, which is attained. *)
Theorem mnemonic_code_not_empty (m : string) :
  is_mnemonic m = true ->
  exists v, mnemonic_code m = Some v /\ 715 <= v /\
            v <> LBMessageID_value MESSAGE_EMPTY /\
            mnemonic_code "AA" = Some 715.
Proof.
  intros H. destruct (mnemonic_code_range m H) as (v & Hv & Hr).
  exists v. split; [exact Hv|]. split; [lia|]. split; [|reflexivity].
  change (LBMessageID_value MESSAGE_EMPTY) with 0. lia.
Qed.

Lemma mnemonic_code_not_empty_witness :
  is_mnemonic "GO" = true /\
  exists v, mnemonic_code "GO" = Some v /\ 715 <= v /\
            v <> LBMessageID_value MESSAGE_EMPTY /\
            mnemonic_code "AA" = Some 715.
Proof.
  split; [reflexivity | apply (mnemonic_code_not_empty "GO"); reflexivity].
Defined.

(** C5, as stated, fails: BKL and CAL are distinct mnemonics of three
    uppercase letters with the same encoding, 7426. *)
Lemma mnemonic_code_collision :
  is_mnemonic "BKL" = true /\ is_mnemonic "CAL" = true /\
  "BKL"%string <> "CAL"%string /\
  mnemonic_code "BKL" = mnemonic_code "CAL".
Proof. repeat split; discriminate. Qed.

(** Two-letter mnemonics collide as well: AK and BA both encode to 725. *)
Lemma mnemonic_code_collision2 :
  is_mnemonic "AK" = true /\ is_mnemonic "BA" = true /\
  mnemonic_code "AK" = Some 725 /\ mnemonic_code "BA" = Some 725.
Proof. repeat split. Qed.

(** C5, amended: on the mnemonics of the fixed mapping the encoding is
    injective: two distinct members encode to distinct integers. *)
Theorem mnemonic_code_injective_on_table (m1 m2 : string) :
  m1 ∈ table_mnemonics -> m2 ∈ table_mnemonics ->
  m1 <> m2 -> mnemonic_code m1 <> mnemonic_code m2.
Proof.
  intros H1 H2 Hne Heq. apply Hne. clear Hne.
  unfold table_mnemonics in H1, H2. cbn in H1, H2.
  repeat (apply elem_of_cons in H1 as [->|H1]);
    [..|apply elem_of_nil in H1; contradiction];
    (repeat (apply elem_of_cons in H2 as [->|H2]);
     [..|apply elem_of_nil in H2; contradiction]);
    first [reflexivity | discriminate Heq].
Qed.

Lemma mnemonic_code_injective_on_table_witness :
  mnemonic_code "ID" <> mnemonic_code "GO".
Proof.
  apply (mnemonic_code_injective_on_table "ID" "GO");
    [ unfold table_mnemonics; cbn; do 5 right; left
    | unfold table_mnemonics; cbn; do 6 right; left
    | discriminate ].
Defined.

(** Every member of the fixed mapping is a legal mnemonic. *)
Lemma table_mnemonics_legal :
  Forall (fun m => is_mnemonic m = true) table_mnemonics.
Proof. repeat constructor. Qed.

End Encoding.

(** ** Capacity *)

(** C9: the capacity constants have the stated values, the commandline limit
    is (1+10)*3 = 33, and a LinkbusRxBuffer holds exactly 3 fields of 10
    characters each. *)
Theorem capacity_constants :
  LINKBUS_MAX_MSG_LENGTH = 50 /\
  LINKBUS_MIN_MSG_LENGTH = 2 /\
  LINKBUS_MAX_MSG_FIELD_LENGTH = 10 /\
  LINKBUS_MAX_MSG_FIELD_LENGTH - 1 = 9 /\
  LINKBUS_MAX_MSG_NUMBER_OF_FIELDS = 3 /\
  LINKBUS_NUMBER_OF_RX_MSG_BUFFERS = 2 /\
  LINKBUS_NUMBER_OF_TX_MSG_BUFFERS = 4 /\
  LINKBUS_MAX_TX_MSG_LENGTH = 41 /\
  LINKBUS_MAX_COMMANDLINE_LENGTH = (1 + 10) * 3 /\
  LINKBUS_MAX_COMMANDLINE_LENGTH = 33 /\
  forall b : LinkbusRxBuffer,
    length (vec_to_list (rx_fields b)) = 3 /\
    Forall (fun f => length (vec_to_list f) = 10) (vec_to_list (rx_fields b)).
Proof.
  do 10 (split; [reflexivity|]).
  intros b. split.
  - apply length_vec_to_list.
  - apply Forall_forall. intros f _. apply length_vec_to_list.
Qed.

(** A field of at most nine characters without NUL is read back from its
    10-character array unchanged: the tenth character is the terminator. *)
Lemma c_string_store_field (f : list ascii) :
  length f <= LINKBUS_MAX_MSG_FIELD_LENGTH - 1 ->
  Forall (fun c => c <> NUL) f ->
  c_string (vec_to_list (store_field f)) = f.
Proof.
  intros Hlen Hnz.
  do 10 (destruct f as [|? f];
         [ repeat match goal with H : Forall _ (_ :: _) |- _ =>
                    apply Forall_cons in H as [? H] end;
           cbn; repeat (match goal with H : ?c <> NUL |- context [(?c =? NUL)%char] =>
                          rewrite (proj2 (Ascii.eqb_neq c NUL) H) end; cbn [c_string]);
           reflexivity
         | ]).
  cbn in Hlen. lia.
Qed.


(** ** Buffer pool: the queue of Full slots *)

Section PoolFacts.
Context {A : Type}.
Implicit Types (p : Pool A) (q : list nat) (h : nat) (x : A).

Lemma oldest_None (l : list (nat * Slot A)) : oldest l = None -> l = [].
Proof.
  destruct l as [|e l]; [reflexivity|]. cbn.
  destruct (oldest l); [case_decide|]; discriminate.
Qed.

Lemma oldest_Some (l : list (nat * Slot A)) e :
  oldest l = Some e ->
  e ∈ l /\ forall e', e' ∈ l -> slot_seq e.2 <= slot_seq e'.2.
Proof.
  revert e. induction l as [|a l IH]; intros e; cbn; [discriminate|].
  destruct (oldest l) as [b|] eqn:Hb.
  - destruct (IH b eq_refl) as [Hin Hmin].
    case_decide as Hle; intros [= <-].
    + split; [left|]. intros e' [->|He']%elem_of_cons; [lia|].
      specialize (Hmin e' He'). lia.
    + split; [right; exact Hin|]. intros e' [->|He']%elem_of_cons; [lia|].
      apply Hmin, He'.
  - intros [= <-]. apply oldest_None in Hb as ->.
    split; [left|]. intros e' [->|He']%elem_of_cons; [lia|].
    apply elem_of_nil in He'. contradiction.
Qed.

Lemma elem_of_full_slots p h (s : Slot A) :
  (h, s) ∈ full_slots p <-> pool_slots p !! h = Some s /\ slot_state s = FULL_BUFF.
Proof.
  unfold full_slots. rewrite list_elem_of_filter, elem_of_lookup_imap. cbn.
  split.
  - intros (Hf & i & y & [= -> ->] & Hl). split; assumption.
  - intros [Hl Hf]. split; [exact Hf|]. exists h, s. split; [reflexivity | exact Hl].
Qed.

Lemma slot_seq_of_lookup p h (s : Slot A) :
  pool_slots p !! h = Some s -> slot_seq_of p h = slot_seq s.
Proof. unfold slot_seq_of. intros ->. reflexivity. Qed.

(** The oldest Full slot is the head of the queue. *)
Lemma acquire_full_head p h q : queue_of p (h :: q) -> acquire_full p = Some h.
Proof.
  intros (Hmem & Hsort & _). unfold acquire_full.
  destruct (proj1 (Hmem h) (list_elem_of_here h q)) as (s & Hs & Hfull).
  assert (Hin : (h, s) ∈ full_slots p) by (apply elem_of_full_slots; auto).
  destruct (oldest (full_slots p)) as [[h' s']|] eqn:Hold.
  - cbn. f_equal. apply oldest_Some in Hold as [Hin' Hmin].
    specialize (Hmin _ Hin). cbn in Hmin.
    apply elem_of_full_slots in Hin' as [Hs' Hfull'].
    assert (Hq : h' ∈ h :: q) by (apply Hmem; exists s'; auto).
    apply elem_of_cons in Hq as [->|Hq]; [reflexivity|].
    apply StronglySorted_inv in Hsort as [_ Hall].
    rewrite Forall_forall in Hall. specialize (Hall h' Hq). cbn in Hall.
    rewrite (slot_seq_of_lookup _ _ _ Hs), (slot_seq_of_lookup _ _ _ Hs') in Hall.
    lia.
  - apply oldest_None in Hold. rewrite Hold in Hin.
    apply elem_of_nil in Hin. contradiction.
Qed.

Lemma acquire_full_nil p : queue_of p [] -> acquire_full p = None.
Proof.
  intros (Hmem & _ & _). unfold acquire_full.
  destruct (full_slots p) as [|[h s] l] eqn:Hl; [reflexivity|].
  assert (Hin : (h, s) ∈ full_slots p) by (rewrite Hl; left).
  apply elem_of_full_slots in Hin as [Hs Hf].
  assert (Hq : h ∈ @nil nat) by (apply Hmem; exists s; auto).
  apply elem_of_nil in Hq. contradiction.
Qed.

Lemma acquire_empty_Acquired p h :
  acquire_empty p = Acquired h ->
  exists s, pool_slots p !! h = Some s /\ slot_state s = EMPTY_BUFF.
Proof.
  unfold acquire_empty.
  destruct (list_find _ (pool_slots p)) as [[i s]|] eqn:Hf; [|discriminate].
  intros [= <-]. apply list_find_Some in Hf as (Hl & He & _). eauto.
Qed.

Lemma acquire_empty_exhausted p :
  acquire_empty p = BufferExhausted <->
  Forall (fun s => slot_state s = FULL_BUFF) (pool_slots p).
Proof.
  unfold acquire_empty.
  destruct (list_find _ (pool_slots p)) as [[i s]|] eqn:Hf.
  - split; [discriminate|]. intros Hall.
    apply list_find_Some in Hf as (Hl & He & _).
    rewrite Forall_forall in Hall.
    specialize (Hall s (list_elem_of_lookup_2 _ _ _ Hl)). congruence.
  - split; [|reflexivity]. intros _.
    apply list_find_None in Hf. eapply Forall_impl; [exact Hf|].
    intros s Hs. cbn in Hs. destruct (slot_state s); congruence.
Qed.

Lemma lookup_put_eq p h x (s : Slot A) :
  pool_slots p !! h = Some s ->
  pool_slots (commit h (write h x p)) !! h
  = Some (mkSlot FULL_BUFF (pool_next_seq p) x).
Proof.
  intros Hs. cbn. rewrite !list_lookup_alter_eq, Hs. reflexivity.
Qed.

Lemma lookup_put_ne p h x j :
  h <> j -> pool_slots (commit h (write h x p)) !! j = pool_slots p !! j.
Proof. intros Hne. cbn. rewrite !list_lookup_alter_ne by exact Hne. reflexivity. Qed.

Lemma lookup_release_ne p h j :
  h <> j -> pool_slots (release h p) !! j = pool_slots p !! j.
Proof. intros Hne. cbn. rewrite list_lookup_alter_ne by exact Hne. reflexivity. Qed.

Lemma slot_seq_of_release p h j : slot_seq_of (release h p) j = slot_seq_of p j.
Proof.
  unfold slot_seq_of. cbn. destruct (decide (h = j)) as [->|Hne].
  - rewrite list_lookup_alter_eq. destruct (pool_slots p !! j); reflexivity.
  - rewrite list_lookup_alter_ne by exact Hne. reflexivity.
Qed.

Lemma payloads_ext p p' q :
  (forall h, h ∈ q -> pool_slots p' !! h = pool_slots p !! h) ->
  payloads p' q = payloads p q.
Proof.
  induction q as [|h q IH]; intros Heq; [reflexivity|].
  unfold payloads in *. cbn [omap list_omap].
  rewrite (Heq h) by left. rewrite IH by (intros; apply Heq; right; assumption).
  reflexivity.
Qed.

Lemma payloads_app p q1 q2 : payloads p (q1 ++ q2) = payloads p q1 ++ payloads p q2.
Proof. unfold payloads. apply omap_app. Qed.

(** Appending a slot whose commit number exceeds all those of a sorted
    queue keeps it sorted. *)
Lemma sorted_snoc (f f' : nat -> nat) q h :
  StronglySorted (fun a b => f a < f b) q ->
  (forall a, a ∈ q -> f' a = f a) ->
  (forall a, a ∈ q -> f a < f' h) ->
  StronglySorted (fun a b => f' a < f' b) (q ++ [h]).
Proof.
  induction q as [|a q IH]; intros Hs Hsame Hlt; cbn [app].
  - repeat constructor.
  - apply StronglySorted_inv in Hs as [Hs Hall]. constructor.
    + apply IH; [exact Hs | |]; intros b Hb; [apply Hsame | apply Hlt]; right; exact Hb.
    + apply Forall_app. split.
      * rewrite Forall_forall in Hall |- *. intros b Hb.
        rewrite (Hsame a) by left. rewrite (Hsame b) by (right; exact Hb).
        apply Hall, Hb.
      * constructor; [|constructor]. rewrite (Hsame a) by left. apply Hlt. left.
Qed.

Lemma queue_of_head_fresh p h q : queue_of p (h :: q) -> h ∉ q.
Proof.
  intros (_ & Hsort & _) Hin.
  apply StronglySorted_inv in Hsort as [_ Hall].
  rewrite Forall_forall in Hall. specialize (Hall h Hin). cbn in Hall. lia.
Qed.

(** A producer's commit appends its slot to the queue. *)
Lemma queue_of_put p q h x :
  queue_of p q -> acquire_empty p = Acquired h ->
  queue_of (commit h (write h x p)) (q ++ [h]) /\
  payloads (commit h (write h x p)) (q ++ [h]) = payloads p q ++ [x].
Proof.
  intros (Hmem & Hsort & Hlt) Hacq.
  destruct (acquire_empty_Acquired p h Hacq) as (s & Hs & Hempty).
  assert (Hfresh : h ∉ q).
  { intros Hin. apply Hmem in Hin as (s' & Hs' & Hf'). congruence. }
  assert (Hne : forall a, a ∈ q -> h <> a) by (intros a Ha ->; contradiction).
  assert (Hseq : forall a, a ∈ q ->
            slot_seq_of (commit h (write h x p)) a = slot_seq_of p a).
  { intros a Ha. unfold slot_seq_of. rewrite lookup_put_ne by auto. reflexivity. }
  assert (Hseqh : slot_seq_of (commit h (write h x p)) h = pool_next_seq p).
  { unfold slot_seq_of. rewrite (lookup_put_eq p h x s Hs). reflexivity. }
  rewrite Forall_forall in Hlt.
  split; [split; [|split]|].
  - intros j. rewrite elem_of_app, list_elem_of_singleton.
    destruct (decide (h = j)) as [<-|Hj].
    + split; [|auto]. intros _. eexists. split; [apply (lookup_put_eq p h x s Hs)|].
      reflexivity.
    + unfold slot_full. rewrite lookup_put_ne by exact Hj.
      rewrite (Hmem j). unfold slot_full. split; [intros [?|?]; [assumption|congruence]|auto].
  - apply (sorted_snoc (slot_seq_of p)); [exact Hsort | exact Hseq |].
    intros a Ha. rewrite Hseqh. apply Hlt, Ha.
  - apply Forall_app. split.
    + apply Forall_forall. intros a Ha. rewrite (Hseq a Ha).
      specialize (Hlt a Ha). cbn. lia.
    + constructor; [|constructor]. rewrite Hseqh. cbn. lia.
  - rewrite payloads_app. f_equal.
    + apply payloads_ext. intros a Ha. apply lookup_put_ne; auto.
    + unfold payloads. cbn [omap list_omap].
      rewrite (lookup_put_eq p h x s Hs). reflexivity.
Qed.

(** Releasing the head removes it from the queue. *)
Lemma queue_of_release p h q :
  queue_of p (h :: q) ->
  queue_of (release h p) q /\ payloads (release h p) q = payloads p q.
Proof.
  intros Hq. pose proof (queue_of_head_fresh p h q Hq) as Hfresh.
  destruct Hq as (Hmem & Hsort & Hlt).
  apply StronglySorted_inv in Hsort as [Hsort _].
  apply Forall_cons in Hlt as [_ Hlt].
  split; [split; [|split]|].
  - intros j. destruct (decide (h = j)) as [<-|Hj].
    + split; [contradiction|]. intros (s & Hs & Hf). exfalso.
      cbn in Hs. rewrite list_lookup_alter_eq in Hs.
      destruct (pool_slots p !! h); cbn in Hs; [|discriminate].
      injection Hs as <-. discriminate Hf.
    + unfold slot_full. rewrite lookup_release_ne by exact Hj.
      rewrite <- (Hmem j). rewrite elem_of_cons. split; [auto|].
      intros [?|?]; [congruence|assumption].
  - eapply StronglySorted_ind with (P := StronglySorted _); [constructor| |exact Hsort].
    intros a l _ IH Ha. constructor; [exact IH|].
    eapply Forall_impl; [exact Ha|]. intros b Hb. cbn in *.
    rewrite !slot_seq_of_release. exact Hb.
  - eapply Forall_impl; [exact Hlt|]. intros b Hb. cbn in *.
    rewrite slot_seq_of_release. exact Hb.
  - apply payloads_ext. intros a Ha. apply lookup_release_ne.
    intros ->. contradiction.
Qed.

Lemma queue_of_init (n : nat) (d : A) : queue_of (pool_init n d) [].
Proof.
  split; [|split]; [|constructor|constructor].
  intros h. split; [intros Hin; apply elem_of_nil in Hin; contradiction|].
  intros (s & Hs & Hf). cbn in Hs. apply lookup_replicate in Hs as [-> _].
  discriminate Hf.
Qed.

Lemma filled_init (n : nat) (d : A) : filled 0 n (pool_init n d).
Proof.
  split; [apply length_replicate|].
  intros i s Hs. cbn in Hs. apply lookup_replicate in Hs as [-> _]. cbn.
  split; [discriminate | lia].
Qed.

Lemma acquire_empty_filled p (k n : nat) :
  filled k n p -> k < n -> acquire_empty p = Acquired k.
Proof.
  intros [Hlen Hst] Hk. unfold acquire_empty.
  destruct (lookup_lt_is_Some_2 (pool_slots p) k) as [s Hs]; [lia|].
  assert (Hfind : list_find (fun s => slot_state s = EMPTY_BUFF) (pool_slots p)
                  = Some (k, s)).
  { apply list_find_Some. split; [exact Hs|]. split.
    - destruct (slot_state s) eqn:E; [reflexivity|].
      apply (Hst k s Hs) in E. lia.
    - intros j y Hy Hj Hempty.
      assert (Hfull : slot_state y = FULL_BUFF) by (apply (Hst j y Hy); exact Hj).
      congruence. }
  rewrite Hfind. reflexivity.
Qed.

Lemma acquire_empty_filled_all p (n : nat) :
  filled n n p -> acquire_empty p = BufferExhausted.
Proof.
  intros [Hlen Hst]. apply acquire_empty_exhausted.
  apply Forall_lookup. intros i s Hs. apply (Hst i s Hs).
  apply lookup_lt_Some in Hs. lia.
Qed.

Lemma filled_put p (k n : nat) x :
  filled k n p -> k < n -> filled (S k) n (commit k (write k x p)).
Proof.
  intros [Hlen Hst] Hk. split.
  - cbn. rewrite !length_alter. exact Hlen.
  - intros i s Hs. destruct (decide (k = i)) as [<-|Hne].
    + destruct (lookup_lt_is_Some_2 (pool_slots p) k) as [s0 Hs0]; [lia|].
      rewrite (lookup_put_eq p k x s0 Hs0) in Hs. injection Hs as <-. cbn.
      split; [lia | reflexivity].
    + rewrite lookup_put_ne in Hs by exact Hne.
      rewrite (Hst i s Hs). lia.
Qed.

(** Requests on a pool of [n] slots whose first [k] are Full: those that fit
    are granted the slots k, k+1, ... in pool order. *)
Lemma put_all_filled (xs : list A) : forall p (k n : nat),
  filled k n p -> k + length xs <= n ->
  (put_all xs p).1 = Acquired <$> seq k (length xs) /\
  filled (k + length xs) n (put_all xs p).2.
Proof.
  induction xs as [|x xs IH]; intros p k n Hf Hle; cbn [put_all length].
  - cbn. rewrite Nat.add_0_r. split; [reflexivity | exact Hf].
  - cbn [length] in Hle. unfold pool_put.
    rewrite (acquire_empty_filled p k n Hf) by lia.
    destruct (IH _ (S k) n (filled_put p k n x Hf ltac:(lia)) ltac:(lia)) as [Hout Hfill].
    destruct (put_all xs _) as [rs p2]. cbn [fst snd] in *.
    split; [cbn; f_equal; exact Hout|].
    replace (k + S (length xs)) with (S k + length xs) by lia. exact Hfill.
Qed.

(** A pool of [n] slots, all Empty, grants [n] successive requests and
    refuses the next. *)
Lemma pool_init_exhausts (n : nat) (d : A) (xs : list A) (x : A) :
  length xs = n ->
  (put_all (xs ++ [x]) (pool_init n d)).1
  = (Acquired <$> seq 0 n) ++ [BufferExhausted].
Proof.
  intros Hlen.
  assert (Happ : forall ys zs p,
            (put_all (ys ++ zs) p).1
            = (put_all ys p).1 ++ (put_all zs (put_all ys p).2).1).
  { induction ys as [|y ys IH]; intros zs p; cbn [app put_all].
    - reflexivity.
    - destruct (pool_put y p) as [r p1]. specialize (IH zs p1).
      destruct (put_all (ys ++ zs) p1), (put_all ys p1). cbn in *.
      f_equal. exact IH. }
  rewrite Happ.
  destruct (put_all_filled xs (pool_init n d) 0 n (filled_init n d) ltac:(cbn; lia))
    as [Hout Hfill].
  rewrite Hout, Hlen. f_equal. cbn [Nat.add] in Hfill. rewrite Hlen in Hfill.
  cbn [put_all]. unfold pool_put.
  rewrite (acquire_empty_filled_all _ n Hfill). reflexivity.
Qed.

End PoolFacts.



(** The same through the producer's step, which acquires, fills and commits:
    the pools grant 2 and 4 requests and refuse the next. *)
Lemma put_all_exhaustion :
  (forall x1 x2 x3 : LinkbusRxBuffer,
     (put_all [x1; x2; x3] rx_pool_init).1
     = [Acquired 0; Acquired 1; BufferExhausted]) /\
  (forall y1 y2 y3 y4 y5 : LinkbusTxBuffer,
     (put_all [y1; y2; y3; y4; y5] tx_pool_init).1
     = [Acquired 0; Acquired 1; Acquired 2; Acquired 3; BufferExhausted]).
Proof. split; intros; reflexivity. Qed.

(** ** Frame parser *)

Lemma parser_step_bounded (st : ParserState) (c : ascii) :
  commandline_length st <= LINKBUS_MAX_COMMANDLINE_LENGTH ->
  commandline_length (parser_step st c).1 <= LINKBUS_MAX_COMMANDLINE_LENGTH /\
  Forall write_in_bounds (parser_step st c).2.
Proof.
  intros Hb. destruct st as [|s buf]; cbn [parser_step];
    change LINKBUS_MAX_COMMANDLINE_LENGTH with 33 in *.
  - destruct (is_sigil c); cbn; split; try constructor; lia.
  - destruct (is_sigil c); [cbn; split; [lia | constructor]|].
    destruct (is_terminator c); [cbn; split; [lia | repeat constructor]|].
    destruct (is_erase c).
    + cbn in *. split; [|constructor].
      destruct buf as [|a buf] using rev_ind; [cbn; lia|].
      rewrite removelast_last. rewrite length_app in Hb. lia.
    + destruct (Nat.ltb_spec (length buf) 33) as [Hlt|Hge].
      * cbn. rewrite length_app. cbn. split; [lia|].
        constructor; [exact Hlt | constructor].
      * cbn. split; [lia | repeat constructor].
Qed.

Lemma parser_run_bounded (bytes : list ascii) : forall st,
  commandline_length st <= LINKBUS_MAX_COMMANDLINE_LENGTH ->
  commandline_length (parser_run st bytes).1 <= LINKBUS_MAX_COMMANDLINE_LENGTH /\
  Forall write_in_bounds (parser_run st bytes).2.
Proof.
  induction bytes as [|c cs IH]; intros st Hb; cbn [parser_run].
  - cbn. split; [exact Hb | constructor].
  - destruct (parser_step_bounded st c Hb) as [Hb1 Hw1].
    destruct (parser_step st c) as [st1 ev1]. cbn in Hb1, Hw1.
    destruct (IH st1 Hb1) as [Hb2 Hw2].
    destruct (parser_run st1 cs) as [st2 ev2]. cbn in *.
    split; [exact Hb2 | apply Forall_app; split; assumption].
Qed.

Lemma is_data_inv (c : ascii) :
  is_data c = true ->
  is_sigil c = false /\ is_terminator c = false /\ is_erase c = false.
Proof.
  unfold is_data. rewrite !andb_true_iff, !negb_true_iff. tauto.
Qed.

(** In Idle, data bytes are ignored. *)
Lemma parser_run_idle_data (data : list ascii) :
  forallb is_data data = true -> parser_run Idle data = (Idle, []).
Proof.
  induction data as [|c cs IH]; cbn [forallb parser_run]; [reflexivity|].
  rewrite andb_true_iff. intros [Hc Hcs].
  apply is_data_inv in Hc as (Hs & _ & _).
  cbn [parser_step]. rewrite Hs, (IH Hcs). reflexivity.
Qed.

Lemma parser_run_accumulate (data : list ascii) : forall s buf,
  forallb is_data data = true ->
  length buf + length data <= LINKBUS_MAX_COMMANDLINE_LENGTH ->
  parser_run (Accumulating s buf) data
  = (Accumulating s (buf ++ data), writes_from (length buf) data).
Proof.
  induction data as [|c cs IH]; intros s buf Hd Hlen.
  - cbn. rewrite app_nil_r. reflexivity.
  - cbn [forallb] in Hd. apply andb_true_iff in Hd as [Hc Hcs].
    apply is_data_inv in Hc as (Hs & Ht & He).
    cbn [parser_run parser_step]. rewrite Hs, Ht, He.
    cbn [length] in Hlen.
    destruct (Nat.ltb_spec (length buf) LINKBUS_MAX_COMMANDLINE_LENGTH) as [_|Hge];
      [|lia].
    rewrite (IH s (buf ++ [c]) Hcs) by (rewrite length_app; cbn [length]; lia).
    rewrite <- app_assoc. cbn [app]. f_equal.
    unfold writes_from. cbn [imap app]. rewrite Nat.add_0_r. f_equal.
    apply imap_ext. intros i x _. cbn. rewrite length_app. cbn. f_equal. lia.
Qed.

(** A full buffer and one more data byte: the line is discarded. *)
Lemma parser_step_overflow (s c : ascii) (buf : list ascii) :
  is_data c = true ->
  length buf = LINKBUS_MAX_COMMANDLINE_LENGTH ->
  parser_step (Accumulating s buf) c = (Idle, [LineInvalid]).
Proof.
  intros Hc Hlen. apply is_data_inv in Hc as (Hs & Ht & He).
  cbn [parser_step]. rewrite Hs, Ht, He, Hlen. reflexivity.
Qed.

Lemma parser_run_app (xs ys : list ascii) (st : ParserState) :
  parser_run st (xs ++ ys)
  = let '(st1, ev1) := parser_run st xs in
    let '(st2, ev2) := parser_run st1 ys in (st2, ev1 ++ ev2).
Proof.
  revert st. induction xs as [|x xs IH]; intros st; cbn [app parser_run].
  - destruct (parser_run st ys). reflexivity.
  - destruct (parser_step st x) as [st1 ev1]. rewrite IH.
    destruct (parser_run st1 xs) as [st2 ev2].
    destruct (parser_run st2 ys) as [st3 ev3].
    rewrite app_assoc. reflexivity.
Qed.

(** C1: whatever bytes are fed one at a time, the commandline never holds
    more than LINKBUS_MAX_COMMANDLINE_LENGTH = 33 characters and every store
    into the buffer is at an index below 33; a data byte arriving when the
    buffer holds 33 characters forces the Invalid outcome and the return to
    Idle; and a sigil followed by more than 33 data characters without a
    terminator ends with the parser in Idle, the line discarded as Invalid
    after exactly the first 33 characters were stored, and no line handed to
    the decoder. *)
Theorem parser_never_overflows :
  LINKBUS_MAX_COMMANDLINE_LENGTH = 33 /\
  (forall bytes,
     commandline_length (parser_run Idle bytes).1 <= LINKBUS_MAX_COMMANDLINE_LENGTH /\
     Forall write_in_bounds (parser_run Idle bytes).2) /\
  (forall sigil buf c,
     length buf = LINKBUS_MAX_COMMANDLINE_LENGTH -> is_data c = true ->
     parser_step (Accumulating sigil buf) c = (Idle, [LineInvalid])) /\
  (forall st sigil data,
     is_sigil sigil = true ->
     forallb is_data data = true ->
     LINKBUS_MAX_COMMANDLINE_LENGTH < length data ->
     parser_run st (sigil :: data)
     = (Idle, writes_from 0 (take LINKBUS_MAX_COMMANDLINE_LENGTH data) ++ [LineInvalid])).
Proof.
  split; [reflexivity|]. split; [|split].
  - intros bytes. apply parser_run_bounded. cbn. lia.
  - intros sigil buf c Hlen Hc. apply parser_step_overflow; assumption.
  - intros st sigil data Hs Hd Hlen.
    assert (Hst : parser_step st sigil = (Accumulating sigil [], [])).
    { destruct st; cbn [parser_step]; rewrite Hs; reflexivity. }
    cbn [parser_run]. rewrite Hst.
    rewrite <- (take_drop LINKBUS_MAX_COMMANDLINE_LENGTH data) at 1.
    rewrite <- (take_drop LINKBUS_MAX_COMMANDLINE_LENGTH data) in Hd.
    rewrite forallb_app in Hd. apply andb_true_iff in Hd as [Hd1 Hd2].
    assert (Hl1 : length (take LINKBUS_MAX_COMMANDLINE_LENGTH data)
                  = LINKBUS_MAX_COMMANDLINE_LENGTH)
      by (rewrite length_take; lia).
    destruct (drop LINKBUS_MAX_COMMANDLINE_LENGTH data) as [|c rest] eqn:Hdrop.
    { apply (f_equal length) in Hdrop. rewrite length_drop in Hdrop.
      cbn [length] in Hdrop. lia. }
    cbn [forallb] in Hd2. apply andb_true_iff in Hd2 as [Hc Hrest].
    rewrite parser_run_app.
    rewrite (parser_run_accumulate _ sigil [] Hd1) by (cbn [length]; lia).
    cbn [app length parser_run].
    rewrite (parser_step_overflow sigil c _ Hc Hl1).
    rewrite (parser_run_idle_data rest Hrest). reflexivity.
Qed.

Lemma parser_never_overflows_witness :
  parser_run Idle ("$"%char :: repeat "A"%char 34)
  = (Idle, writes_from 0 (take LINKBUS_MAX_COMMANDLINE_LENGTH (repeat "A"%char 34))
           ++ [LineInvalid]).
Proof.
  apply (proj2 (proj2 (proj2 parser_never_overflows)) Idle "$"%char (repeat "A"%char 34)).
  - reflexivity.
  - reflexivity.
  - vm_compute. lia.
Defined.

(** ** Transmit scheduler: order *)

Lemma payloads_cons {A} (p : Pool A) (h : nat) (q : list nat) (s : Slot A) :
  pool_slots p !! h = Some s -> payloads p (h :: q) = slot_data s :: payloads p q.
Proof. intros Hs. unfold payloads. cbn [omap list_omap]. rewrite Hs. reflexivity. Qed.

Lemma payloads_put {A} (p : Pool A) (h : nat) (x : A) (l : list nat) :
  acquire_empty p = Acquired h ->
  (forall a, a ∈ l -> slot_full p a) ->
  payloads (commit h (write h x p)) (l ++ [h]) = payloads p l ++ [x].
Proof.
  intros Hacq Hfull.
  destruct (acquire_empty_Acquired p h Hacq) as (s & Hs & Hempty).
  rewrite payloads_app. f_equal.
  - apply payloads_ext. intros a Ha. apply lookup_put_ne. intros ->.
    destruct (Hfull a Ha) as (s' & Hs' & Hf'). congruence.
  - unfold payloads. cbn [omap list_omap].
    rewrite (lookup_put_eq p h x s Hs). reflexivity.
Qed.

(** One event keeps the pending texts in step with the queue of Full slots:
    a commit appends its text, a start takes the first pending text. *)
Lemma tx_step_pending (t : Transmitter) (e : TxEvent) (pend : list LinkbusTxBuffer) :
  tx_pending t pend ->
  match (tx_step t e).2 with
  | Queued _ text => tx_pending (tx_step t e).1 (pend ++ [text])
  | Polled _ (Sent _ text) =>
      exists pend', pend = text :: pend' /\ tx_pending (tx_step t e).1 pend'
  | _ => tx_pending (tx_step t e).1 pend
  end.
Proof.
  intros (q & Hq & Hfl). destruct t as [p fl ls ld]. cbn in Hq, Hfl.
  destruct e as [text|now|now]; cbn [tx_step].
  - unfold tx_enqueue, pool_put. cbn [tx_pool tx_in_flight tx_last_start tx_last_done].
    destruct (acquire_empty p) as [h|] eqn:Hacq; cbn.
    + destruct (queue_of_put p q h text Hq Hacq) as [Hq' _].
      exists (q ++ [h]). split; [exact Hq'|]. cbn.
      destruct fl as [hf|].
      * destruct Hfl as (q' & -> & ->). exists (q' ++ [h]). split; [reflexivity|].
        symmetry. apply payloads_put; [exact Hacq|].
        intros a Ha. apply Hq. right. exact Ha.
      * subst pend. symmetry. apply payloads_put; [exact Hacq|].
        intros a Ha. apply Hq. exact Ha.
    + exists q. split; assumption.
  - unfold try_send_next, linkbusTxInProgress.
    cbn [tx_pool tx_in_flight tx_last_start tx_last_done].
    destruct fl as [hf|]; [cbn; exists q; split; assumption|].
    destruct (negb _); [cbn; exists q; split; assumption|].
    unfold nextFullTxBuffer. subst pend. destruct q as [|h q'].
    + rewrite (acquire_full_nil p Hq). cbn. exists []. split; [exact Hq | reflexivity].
    + rewrite (acquire_full_head p h q' Hq).
      destruct (proj1 (proj1 Hq h) (list_elem_of_here h q')) as (s & Hs & _).
      rewrite Hs. cbn. exists (payloads p q'). split; [apply payloads_cons, Hs|].
      exists (h :: q'). split; [exact Hq|]. cbn. exists q'. split; reflexivity.
  - unfold linkbus_end_tx. cbn [tx_pool tx_in_flight tx_last_start tx_last_done].
    destruct fl as [hf|]; cbn.
    + destruct Hfl as (q' & -> & ->).
      destruct (queue_of_release p hf q' Hq) as [Hq' Hpay].
      exists q'. split; [exact Hq'|]. cbn. symmetry. exact Hpay.
    + exists q. split; assumption.
Qed.

Lemma tx_run_fifo (evs : list TxEvent) : forall t pend,
  tx_pending t pend ->
  started (tx_run t evs).2 `prefix_of` pend ++ committed (tx_run t evs).2.
Proof.
  induction evs as [|e evs IH]; intros t pend Hp; cbn [tx_run].
  - cbn. apply prefix_nil.
  - pose proof (tx_step_pending t e pend Hp) as Hstep.
    destruct (tx_step t e) as [t1 r]. cbn [fst snd] in Hstep.
    specialize (IH t1). destruct (tx_run t1 evs) as [t2 rs]. cbn [snd] in *.
    unfold started, committed in *.
    destruct r as [h text|text|now [h text| |]|now]; cbn [omap list_omap].
    + specialize (IH _ Hstep). rewrite <- app_assoc in IH. exact IH.
    + apply IH, Hstep.
    + destruct Hstep as (pend' & -> & Hp'). cbn [app].
      apply prefix_cons, IH, Hp'.
    + apply IH, Hstep.
    + apply IH, Hstep.
    + apply IH, Hstep.
Qed.

Lemma tx_pending_init : tx_pending transmitter_init [].
Proof.
  exists []. split; [apply queue_of_init | reflexivity].
Qed.

(** C2: in every run of the transmitter from its initial state, the texts
    whose physical transmission starts are, in order, an initial part of the
    texts marked Full, in commit order.  So with A in slot 0 and B in slot 1,
    A transmitted and its slot reused for C, the starts are A, B, C from
    slots 0, 1, 0: commit order, not slot-index order. *)
Theorem transmit_order_fifo :
  (forall evs,
     started (tx_run transmitter_init evs).2
     `prefix_of` committed (tx_run transmitter_init evs).2) /\
  (forall A B C : LinkbusTxBuffer,
     let rs := (tx_run transmitter_init
                  [Enqueue A; Enqueue B; Tick 0; EndTx 10; Enqueue C;
                   Tick 200; EndTx 210; Tick 400]).2 in
     committed rs = [A; B; C] /\ started rs = [A; B; C] /\
     started_slots rs = [0; 1; 0]).
Proof.
  split.
  - intros evs. apply (tx_run_fifo evs transmitter_init [] tx_pending_init).
  - intros A B C. repeat split.
Qed.

(** ** Transmit scheduler: pacing *)

Lemma tx_run_paced (evs : list TxEvent) : forall t,
  clock_monotone evs ->
  (forall t0, tx_last_start t = Some t0 -> Forall (Z.le t0) (event_times evs)) ->
  paced (tx_last_start t) (start_times (tx_run t evs).2).
Proof.
  unfold clock_monotone.
  induction evs as [|e evs IH]; intros t Hmono Hlast; cbn [tx_run]; [exact I|].
  destruct e as [text|now|now]; cbn [tx_step].
  - unfold tx_enqueue. destruct (pool_put text (tx_pool t)) as [[h|] p];
      (specialize (IH (mkTransmitter p (tx_in_flight t) (tx_last_start t) (tx_last_done t))
                      Hmono Hlast);
       destruct (tx_run _ evs) as [t2 rs]; exact IH).
  - unfold event_times in Hmono, Hlast. cbn [omap list_omap] in Hmono, Hlast.
    apply StronglySorted_inv in Hmono as [Hmono Hnow].
    assert (Hkeep : forall t0, tx_last_start t = Some t0 ->
                      Forall (Z.le t0) (event_times evs)).
    { intros t0 Ht0. specialize (Hlast t0 Ht0).
      apply Forall_cons in Hlast as [_ Hlast]. exact Hlast. }
    unfold try_send_next.
    destruct (linkbusTxInProgress t);
      [specialize (IH t Hmono Hkeep); destruct (tx_run t evs); exact IH|].
    destruct (interval_elapsed t now) eqn:Hint; cbn [negb];
      [|specialize (IH t Hmono Hkeep); destruct (tx_run t evs); exact IH].
    destruct (nextFullTxBuffer (tx_pool t)) as [h|];
      [|specialize (IH t Hmono Hkeep); destruct (tx_run t evs); exact IH].
    destruct (pool_slots (tx_pool t) !! h) as [s|];
      [|specialize (IH t Hmono Hkeep); destruct (tx_run t evs); exact IH].
    specialize (IH (mkTransmitter (tx_pool t) (Some h) (Some now) (tx_last_done t)) Hmono).
    destruct (tx_run _ evs) as [t2 rs]. unfold start_times in *.
    cbn [snd omap list_omap paced tx_last_start] in *. split.
    + unfold interval_elapsed in Hint. destruct (tx_last_start t) as [t0|]; [|exact I].
      apply Z.ltb_lt in Hint. exact Hint.
    + apply IH. intros t0 [= <-]. exact Hnow.
  - unfold event_times in Hmono, Hlast. cbn [omap list_omap] in Hmono, Hlast.
    apply StronglySorted_inv in Hmono as [Hmono Hnow].
    assert (Hkeep : forall t0, tx_last_start (linkbus_end_tx now t) = Some t0 ->
                      Forall (Z.le t0) (event_times evs)).
    { intros t0 Ht0. unfold linkbus_end_tx in Ht0.
      destruct (tx_in_flight t); cbn in Ht0; specialize (Hlast t0 Ht0);
        apply Forall_cons in Hlast as [_ Hlast]; exact Hlast. }
    specialize (IH (linkbus_end_tx now t) Hmono Hkeep).
    destruct (tx_run _ evs) as [t2 rs]. unfold start_times in *.
    cbn [snd omap list_omap]. 
    replace (tx_last_start t) with (tx_last_start (linkbus_end_tx now t)); [exact IH|].
    unfold linkbus_end_tx. destruct (tx_in_flight t); reflexivity.
Qed.

Lemma paced_lookup (ts : list Z) : forall prev i t1 t2,
  paced prev ts -> ts !! i = Some t1 -> ts !! S i = Some t2 ->
  (LINKBUS_MIN_TX_INTERVAL_MS < t2 - t1)%Z.
Proof.
  induction ts as [|t ts IH]; intros prev i t1 t2 Hp H1 H2; [discriminate|].
  destruct Hp as [_ Hp]. destruct i as [|i].
  - injection H1 as ->. destruct ts as [|t' ts]; [discriminate|].
    injection H2 as ->. destruct Hp as [Hp _]. exact Hp.
  - apply (IH (Some t) i t1 t2 Hp H1 H2).
Qed.

(** C8: while the clock does not run backwards, any two physical
    transmissions started consecutively by the scheduler start at least
    LINKBUS_MIN_TX_INTERVAL_MS = 100 ms apart (indeed more than 100 ms). *)
Theorem transmissions_paced (evs : list TxEvent) (i : nat) (t1 t2 : Z) :
  clock_monotone evs ->
  start_times (tx_run transmitter_init evs).2 !! i = Some t1 ->
  start_times (tx_run transmitter_init evs).2 !! S i = Some t2 ->
  LINKBUS_MIN_TX_INTERVAL_MS = 100%Z /\ (100 <= t2 - t1)%Z /\ (100 < t2 - t1)%Z.
Proof.
  intros Hmono H1 H2.
  assert (Hp : paced None (start_times (tx_run transmitter_init evs).2)).
  { apply (tx_run_paced evs transmitter_init Hmono). intros t0 Ht0. discriminate Ht0. }
  pose proof (paced_lookup _ _ _ _ _ Hp H1 H2) as Hlt.
  change LINKBUS_MIN_TX_INTERVAL_MS with 100%Z in *. lia.
Qed.

Lemma transmissions_paced_witness :
  LINKBUS_MIN_TX_INTERVAL_MS = 100%Z /\ (100 <= 101 - 0)%Z /\ (100 < 101 - 0)%Z.
Proof.
  apply (transmissions_paced
           [Enqueue "A"; Enqueue "B"; Tick 0; Tick 50; EndTx 60; Tick 100; Tick 101]
           0 0%Z 101%Z).
  - unfold clock_monotone. cbn.
    repeat match goal with
           | |- StronglySorted _ _ => constructor
           | |- Forall _ _ => constructor
           | |- (_ <= _)%Z => lia
           end.
  - reflexivity.
  - reflexivity.
Defined.

(** ** Message decoder *)

Lemma lookup_mnemonic_None (t : list (string * LBMessageID)) (m : string) :
  m ∉ t.*1 -> lookup_mnemonic t m = None.
Proof.
  induction t as [|[k id] t IH]; intros Hnot; cbn; [reflexivity|].
  destruct (String.eqb_spec k m) as [->|Hne].
  - exfalso. apply Hnot. cbn. left.
  - apply IH. intros Hin. apply Hnot. cbn. right. exact Hin.
Qed.

Lemma lookup_mnemonic_Some (t : list (string * LBMessageID)) (m : string) id :
  lookup_mnemonic t m = Some id -> (m, id) ∈ t.
Proof.
  induction t as [|[k id'] t IH]; cbn; [discriminate|].
  destruct (String.eqb_spec k m) as [->|Hne].
  - intros [= ->]. left.
  - intros H. right. apply IH, H.
Qed.

(** No decoded message carries MESSAGE_EMPTY, the mark of an unused buffer. *)
Lemma decode_line_not_empty (sigil terminator : ascii) (text : list ascii) m :
  decode_line sigil text terminator = Message m -> rx_id m <> MESSAGE_EMPTY.
Proof.
  unfold decode_line. destruct (split_fields text) as [|tok fs]; [discriminate|].
  destruct (_ || _); [discriminate|].
  destruct (lookup_mnemonic _ _) as [id|] eqn:Hid; intros [= <-]; cbn; [|discriminate].
  apply lookup_mnemonic_Some in Hid. intros ->.
  unfold mnemonic_table in Hid.
  repeat (apply elem_of_cons in Hid as [Hid|Hid]; [discriminate Hid|]).
  apply elem_of_nil in Hid. exact Hid.
Qed.

(** A well-framed line whose mnemonic is not in the mapping decodes to a
    message of its own, with the Invalid identifier. *)
Lemma decode_line_unmatched (sigil terminator : ascii) (text : list ascii) :
  well_framed sigil text terminator = true ->
  mnemonic_of text ∉ table_mnemonics ->
  exists fs, decode_line sigil text terminator
             = Message (mkRxBuffer LINKBUS_MSG_INVALID INVALID_MESSAGE fs).
Proof.
  unfold well_framed, mnemonic_of, decode_line.
  destruct (split_fields text) as [|tok fs];
    [rewrite andb_false_r; discriminate|].
  rewrite !andb_true_iff.
  intros ((((_ & _) & Hmin) & Hmax) & (_ & Hn) & Hf) Hnot.
  apply Nat.leb_le in Hmin, Hmax, Hn.
  rewrite (proj2 (Nat.ltb_ge _ _) Hmin), (proj2 (Nat.ltb_ge _ _) Hmax),
          (proj2 (Nat.ltb_ge _ _) Hn).
  cbn [orb].
  assert (Hex : existsb (fun f => LINKBUS_MAX_MSG_FIELD_LENGTH - 1 <? length f) fs = false).
  { clear -Hf. induction fs as [|f fs IH]; [reflexivity|].
    cbn [forallb existsb] in *. apply andb_true_iff in Hf as [Hf1 Hf2].
    apply Nat.leb_le in Hf1. rewrite (proj2 (Nat.ltb_ge _ _) Hf1). cbn [orb].
    apply IH, Hf2. }
  rewrite Hex. rewrite (lookup_mnemonic_None _ _ Hnot). eexists. reflexivity.
Qed.

(** The consumer reads the queue of Full slots, oldest first. *)
Lemma drain_queue {A} (q : list nat) : forall (p : Pool A),
  queue_of p q -> drain (length q) p = payloads p q.
Proof.
  induction q as [|h q IH]; intros p Hq; [reflexivity|].
  cbn [length drain]. unfold pool_take.
  rewrite (acquire_full_head p h q Hq).
  destruct (proj1 (proj1 Hq h) (list_elem_of_here h q)) as (s & Hs & _).
  rewrite Hs, (payloads_cons p h q s Hs).
  destruct (queue_of_release p h q Hq) as [Hq' Hpay].
  rewrite (IH _ Hq'), Hpay. reflexivity.
Qed.

(** C7, as stated, fails: the Rx pool has two slots, so of three well-framed
    lines [$XYZ;] with nothing consumed in between the third is not
    committed: it is dropped, with BufferExhausted reported, and the
    consumer is handed two messages only. *)
Lemma unmatched_mnemonic_dropped_when_full :
  well_framed "$" (list_ascii_of_string "XYZ") ";" = true /\
  (mnemonic_of (list_ascii_of_string "XYZ") ∉ table_mnemonics) /\
  exists r,
    receive receiver_init (list_ascii_of_string "$XYZ;$XYZ;$XYZ;")
    = (r, [LineDecoded (Committed 0); LineDecoded (Committed 1);
           LineDecoded DroppedBufferExhausted]) /\
    nextEmptyRxBuffer (rcv_pool r) = BufferExhausted /\
    decode "$" (list_ascii_of_string "XYZ") ";" (rcv_pool r)
    = (DroppedBufferExhausted, rcv_pool r) /\
    length (drain 3 (rcv_pool r)) = 2.
Proof.
  split; [reflexivity|]. split.
  - unfold table_mnemonics. cbn. intros Hin.
    repeat (apply elem_of_cons in Hin as [Hin|Hin]; [discriminate Hin|]).
    apply elem_of_nil in Hin. exact Hin.
  - eexists. split; [reflexivity|]. repeat split.
Qed.

(** C7, amended: a well-framed commandline whose mnemonic is not in the fixed
    mapping decodes to a message carrying INVALID_MESSAGE.  Whenever
    nextEmptyRxBuffer returns an Empty slot, the decoder commits the message
    Full in that slot and the consumer, reading the Full slots oldest first,
    is handed it after the messages committed before; when no slot is Empty
    the message is dropped and BufferExhausted is reported, the pool left as
    it was. *)
Theorem unmatched_mnemonic_surfaced
    (sigil terminator : ascii) (text : list ascii) (p : Pool LinkbusRxBuffer) :
  well_framed sigil text terminator = true ->
  mnemonic_of text ∉ table_mnemonics ->
  exists m,
    decode_line sigil text terminator = Message m /\
    rx_id m = INVALID_MESSAGE /\
    LBMessageID_value (rx_id m) = 65535%Z /\
    (forall h, nextEmptyRxBuffer p = Acquired h ->
       exists p', decode sigil text terminator p = (Committed h, p') /\
         pool_slots p' !! h = Some (mkSlot FULL_BUFF (pool_next_seq p) m) /\
         forall q, queue_of p q ->
           drain (S (length q)) p' = payloads p q ++ [m]) /\
    (nextEmptyRxBuffer p = BufferExhausted ->
       decode sigil text terminator p = (DroppedBufferExhausted, p)).
Proof.
  intros Hwf Hnot.
  destruct (decode_line_unmatched sigil terminator text Hwf Hnot) as (fs & Hdec).
  eexists. split; [exact Hdec|]. split; [reflexivity|]. split; [reflexivity|].
  unfold nextEmptyRxBuffer, decode, pool_put. rewrite Hdec. split.
  - intros h Hacq. rewrite Hacq.
    eexists. split; [reflexivity|].
    destruct (acquire_empty_Acquired p h Hacq) as (s & Hs & _).
    split; [apply (lookup_put_eq p h _ s Hs)|].
    intros q Hq.
    destruct (queue_of_put p q h (mkRxBuffer LINKBUS_MSG_INVALID INVALID_MESSAGE fs) Hq Hacq)
      as [Hq' Hpay].
    rewrite <- Hpay. rewrite <- (drain_queue _ _ Hq').
    rewrite length_app. cbn [length]. rewrite Nat.add_1_r. reflexivity.
  - intros Hacq. rewrite Hacq. reflexivity.
Qed.

Lemma unmatched_mnemonic_surfaced_witness :
  exists m p',
    decode_line "$" (list_ascii_of_string "XYZ") ";" = Message m /\
    rx_id m = INVALID_MESSAGE /\
    decode "$" (list_ascii_of_string "XYZ") ";" rx_pool_init = (Committed 0, p') /\
    pool_slots p' !! 0 = Some (mkSlot FULL_BUFF 0 m) /\
    drain 1 p' = [m].
Proof.
  destruct (unmatched_mnemonic_surfaced "$" ";" (list_ascii_of_string "XYZ") rx_pool_init)
    as (m & Hdec & Hid & _ & Hfree & _).
  - reflexivity.
  - unfold table_mnemonics. cbn. intros Hin.
    repeat (apply elem_of_cons in Hin as [Hin|Hin]; [discriminate Hin|]).
    apply elem_of_nil in Hin. exact Hin.
  - destruct (Hfree 0 eq_refl) as (p' & Hcommit & Hslot & Hdrain).
    exists m, p'. split; [exact Hdec|]. split; [exact Hid|].
    split; [exact Hcommit|]. split; [exact Hslot|].
    apply (Hdrain [] (queue_of_init _ _)).
Defined.




(** ** Serial clock *)

Section SerialClock.
Local Open Scope Z_scope.

(** For a baud rate b with 0 < b <= FOSC/16, MYUBRR(b) is not negative and
    MYUBRR(b)+1 is the largest d with d*b <= FOSC/16. *)
Theorem MYUBRR_divisor (b : Z) :
  0 < b -> b <= FOSC ÷ 16 ->
  0 <= MYUBRR b /\
  (MYUBRR b + 1) * b <= FOSC ÷ 16 < (MYUBRR b + 2) * b.
Proof.
  intros Hpos Hle. unfold MYUBRR in *.
  change (FOSC ÷ 16) with 1000000 in *.
  rewrite Z.quot_div_nonneg by lia.
  pose proof (Z.div_mod 1000000 b ltac:(lia)) as Hdm.
  pose proof (Z.mod_pos_bound 1000000 b Hpos) as Hmod.
  assert (1 <= 1000000 / b) by (apply Z.div_le_lower_bound; lia).
  nia.
Qed.

Lemma MYUBRR_divisor_witness :
  0 <= MYUBRR BAUD /\
  (MYUBRR BAUD + 1) * BAUD <= FOSC ÷ 16 < (MYUBRR BAUD + 2) * BAUD.
Proof. apply (MYUBRR_divisor BAUD); vm_compute; [reflexivity | discriminate]. Defined.

(** On the rates that have a divisor, 0 < b1 <= b2 <= FOSC/16, a higher
    baud rate never gets a larger MYUBRR, and there the macro has the same
    value on a uint32_t argument as in signed arithmetic. *)
Theorem MYUBRR_antitone (b1 b2 : Z) :
  0 < b1 -> b1 <= b2 -> b2 <= FOSC ÷ 16 ->
  MYUBRR b2 <= MYUBRR b1 /\
  MYUBRR_u32 b1 = MYUBRR b1 /\ MYUBRR_u32 b2 = MYUBRR b2 /\
  MYUBRR_u32 b2 <= MYUBRR_u32 b1.
Proof.
  intros Hpos Hle Hmax.
  destruct (MYUBRR_divisor b1 Hpos ltac:(lia)) as [H1 [H1' _]].
  destruct (MYUBRR_divisor b2 ltac:(lia) Hmax) as [H2 [H2' _]].
  assert (Hanti : MYUBRR b2 <= MYUBRR b1).
  { unfold MYUBRR. change (FOSC ÷ 16) with 1000000.
    rewrite !Z.quot_div_nonneg by lia.
    pose proof (Z.div_le_compat_l 1000000 b1 b2 ltac:(lia) ltac:(lia)). lia. }
  change (FOSC ÷ 16) with 1000000 in *.
  assert (Hs1 : MYUBRR_u32 b1 = MYUBRR b1).
  { unfold MYUBRR_u32. fold (MYUBRR b1). apply Z.mod_small. nia. }
  assert (Hs2 : MYUBRR_u32 b2 = MYUBRR b2).
  { unfold MYUBRR_u32. fold (MYUBRR b2). apply Z.mod_small. nia. }
  rewrite Hs1, Hs2. auto.
Qed.

Lemma MYUBRR_antitone_witness :
  MYUBRR 115200 <= MYUBRR BAUD /\
  MYUBRR_u32 BAUD = MYUBRR BAUD /\ MYUBRR_u32 115200 = MYUBRR 115200 /\
  MYUBRR_u32 115200 <= MYUBRR_u32 BAUD.
Proof.
  apply (MYUBRR_antitone BAUD 115200); vm_compute;
    first [reflexivity | discriminate].
Defined.

(** For a 32-bit rate above FOSC/16 the quotient is 0 and the macro computes
    0 - 1: -1 in signed arithmetic, and 4294967295 on a uint32_t argument,
    which is above what the macro gives for any rate that has a divisor. *)
Theorem MYUBRR_too_fast (b : Z) :
  FOSC ÷ 16 < b -> b < 2 ^ 32 ->
  MYUBRR b = -1 /\
  MYUBRR_u32 b = 4294967295 /\
  forall b', 0 < b' -> b' <= FOSC ÷ 16 -> MYUBRR_u32 b' < MYUBRR_u32 b.
Proof.
  intros Hlt _.
  assert (Hs : MYUBRR b = -1).
  { unfold MYUBRR in *. change (FOSC ÷ 16) with 1000000 in *.
    rewrite Z.quot_small by lia. reflexivity. }
  assert (Hu : MYUBRR_u32 b = 4294967295).
  { unfold MYUBRR_u32. fold (MYUBRR b). rewrite Hs. reflexivity. }
  split; [exact Hs|]. split; [exact Hu|].
  intros b' Hpos Hmax.
  destruct (MYUBRR_antitone b' b' Hpos ltac:(lia) Hmax) as (_ & Hs' & _).
  destruct (MYUBRR_divisor b' Hpos Hmax) as [H0 [H1 _]].
  rewrite Hs', Hu. change (FOSC ÷ 16) with 1000000 in *. nia.
Qed.

Lemma MYUBRR_too_fast_witness :
  MYUBRR 2000000 = -1 /\
  MYUBRR_u32 2000000 = 4294967295 /\
  forall b', 0 < b' -> b' <= FOSC ÷ 16 -> MYUBRR_u32 b' < MYUBRR_u32 2000000.
Proof. apply (MYUBRR_too_fast 2000000); vm_compute; reflexivity. Defined.

End SerialClock.

(** ** Message identifiers *)

Section Identifiers.
Local Open Scope Z_scope.

Lemma chr_range (c : ascii) : 0 <= chr c <= 255.
Proof. unfold chr. pose proof (nat_ascii_bounded c). lia. Qed.

Lemma chr_inj (c d : ascii) : chr c = chr d -> c = d.
Proof.
  unfold chr. intros H. apply Nat2Z.inj in H.
  rewrite <- (ascii_nat_embedding c), <- (ascii_nat_embedding d), H. reflexivity.
Qed.

(** No two enumerators of LBMessageID have the same value. *)
Theorem LBMessageID_value_inj (id1 id2 : LBMessageID) :
  id1 <> id2 -> LBMessageID_value id1 <> LBMessageID_value id2.
Proof.
  destruct id1, id2; intros Hne H;
    first [apply Hne; reflexivity | discriminate H].
Qed.

Lemma LBMessageID_value_inj_witness :
  LBMessageID_value MESSAGE_SET_STATION_ID <> LBMessageID_value MESSAGE_GO.
Proof.
  apply (LBMessageID_value_inj MESSAGE_SET_STATION_ID MESSAGE_GO). discriminate.
Defined.

(** The value 0 belongs to MESSAGE_EMPTY alone and to LINKBUS_MSG_UNKNOWN
    alone, the largest identifier value to INVALID_MESSAGE alone: every
    other identifier lies strictly between, within INT16_MAX. *)
Theorem LBMessageID_value_extremes (id : LBMessageID) (t : LBMessageType) :
  (LBMessageID_value id = 0 <-> id = MESSAGE_EMPTY) /\
  (LBMessageType_value t = 0 <-> t = LINKBUS_MSG_UNKNOWN) /\
  (LBMessageID_value id = UINT16_MAX <-> id = INVALID_MESSAGE) /\
  (id <> MESSAGE_EMPTY -> id <> INVALID_MESSAGE ->
   0 < LBMessageID_value id <= INT16_MAX).
Proof.
  split; [|split; [|split]].
  - destruct id; split; intros H; first [reflexivity | discriminate H].
  - destruct t; split; intros H; first [reflexivity | discriminate H].
  - destruct id; split; intros H; first [reflexivity | discriminate H].
  - destruct id; intros H1 H2; try contradiction; vm_compute; split;
      first [reflexivity | discriminate].
Qed.

Lemma LBMessageID_value_extremes_witness :
  0 < LBMessageID_value MESSAGE_GO <= INT16_MAX.
Proof.
  apply (proj2 (proj2 (proj2
           (LBMessageID_value_extremes MESSAGE_GO LINKBUS_MSG_COMMAND))));
    discriminate.
Defined.

Lemma is_7bit_range (c : ascii) : is_7bit c = true -> 0 <= chr c <= 127.
Proof.
  unfold is_7bit. rewrite Z.ltb_lt. pose proof (chr_range c). lia.
Qed.

Lemma forallb_7bit_range (l : list ascii) :
  forallb is_7bit l = true -> Forall (fun c => 0 <= chr c <= 127) l.
Proof.
  induction l as [|c l IH]; cbn [forallb]; [constructor|].
  rewrite andb_true_iff. intros [Hc Hl].
  constructor; [apply is_7bit_range, Hc | apply IH, Hl].
Qed.

(** Whatever the two or three ASCII characters (codes below 0x80, letters or
    not), their encoding is between 0 and 127*111 = 14097: it fits a 16-bit
    signed integer, so the sum of the initialisers never overflows, and it
    is never INVALID_MESSAGE. *)
Theorem mnemonic_code_ascii_range (m : string) (v : Z) :
  forallb is_7bit (list_ascii_of_string m) = true ->
  mnemonic_code m = Some v ->
  0 <= v <= 14097 /\ v <= INT16_MAX /\ v <> LBMessageID_value INVALID_MESSAGE.
Proof.
  intros H7 Hv. apply forallb_7bit_range in H7. revert Hv.
  unfold mnemonic_code.
  change INT16_MAX with 32767. change (LBMessageID_value INVALID_MESSAGE) with 65535.
  destruct (list_ascii_of_string m) as [|a [|b [|c [|d cs]]]]; try discriminate;
    intros [= <-];
    repeat match goal with
           | H : Forall _ (_ :: _) |- _ => apply Forall_cons in H as [? H]
           end; lia.
Qed.

Lemma mnemonic_code_ascii_range_witness :
  0 <= 7498 <= 14097 /\ 7498 <= INT16_MAX /\ 7498 <> LBMessageID_value INVALID_MESSAGE.
Proof. apply (mnemonic_code_ascii_range "CK0" 7498); reflexivity. Defined.

(** Among the texts of ASCII characters, the encoding is MESSAGE_EMPTY = 0
    only for a text of NUL characters. *)
Theorem mnemonic_code_zero (m : string) :
  forallb is_7bit (list_ascii_of_string m) = true ->
  mnemonic_code m = Some (LBMessageID_value MESSAGE_EMPTY) ->
  Forall (fun c => c = NUL) (list_ascii_of_string m).
Proof.
  intros H7 Hv. apply forallb_7bit_range in H7. revert Hv.
  unfold mnemonic_code. change (LBMessageID_value MESSAGE_EMPTY) with 0.
  destruct (list_ascii_of_string m) as [|a [|b [|c [|d cs]]]]; try discriminate;
    intros [= H];
    repeat match goal with
           | H : Forall _ (_ :: _) |- _ => apply Forall_cons in H as [? H]
           end;
    repeat constructor; apply chr_inj; change (chr NUL) with 0; lia.
Qed.

Lemma mnemonic_code_zero_witness :
  Forall (fun c => c = NUL) (list_ascii_of_string (String NUL (String NUL EmptyString))).
Proof.
  apply (mnemonic_code_zero (String NUL (String NUL EmptyString))); reflexivity.
Defined.

Lemma length_list_ascii_of_string (s : string) :
  length (list_ascii_of_string s) = String.length s.
Proof. induction s as [|c s IH]; cbn; [reflexivity | f_equal; exact IH]. Qed.

(** A mnemonic of two uppercase letters and one of three never have the same
    encoding. *)
Theorem mnemonic_code_lengths_apart (m1 m2 : string) :
  is_mnemonic m1 = true -> is_mnemonic m2 = true ->
  String.length m1 <> String.length m2 ->
  mnemonic_code m1 <> mnemonic_code m2.
Proof.
  rewrite <- !length_list_ascii_of_string.
  unfold is_mnemonic, mnemonic_code.
  destruct (list_ascii_of_string m1) as [|a1 [|b1 [|c1 [|d1 l1]]]];
    destruct (list_ascii_of_string m2) as [|a2 [|b2 [|c2 [|d2 l2]]]];
    cbn [length forallb];
    rewrite ?andb_true_iff; intros (Hl1 & H1) (Hl2 & H2) Hne;
    try discriminate Hl1; try discriminate Hl2; try (exfalso; apply Hne; reflexivity);
    repeat match goal with
           | H : _ /\ _ |- _ => destruct H
           | H : is_upper _ = true |- _ => apply is_upper_range in H
           end;
    intros [= Heq]; lia.
Qed.

Lemma mnemonic_code_lengths_apart_witness :
  mnemonic_code "GO" <> mnemonic_code "GOO".
Proof.
  apply (mnemonic_code_lengths_apart "GO" "GOO"); [reflexivity | reflexivity | discriminate].
Defined.

(** Two different texts of ASCII characters, of the same length, whose
    characters after the first are less than ten apart, place by place, have
    different encodings: the encoding is a decimal positional one. *)
Theorem mnemonic_code_injective_near (m1 m2 : string) (v1 v2 : Z) :
  forallb is_7bit (list_ascii_of_string m1) = true ->
  forallb is_7bit (list_ascii_of_string m2) = true ->
  mnemonic_code m1 = Some v1 -> mnemonic_code m2 = Some v2 ->
  Forall2 near (tail (list_ascii_of_string m1)) (tail (list_ascii_of_string m2)) ->
  m1 <> m2 -> v1 <> v2.
Proof.
  unfold mnemonic_code, near. intros _ _ H1 H2 Hnear Hne Heq. subst v2. rename v1 into v.
  apply Hne. clear Hne.
  rewrite <- (string_of_list_ascii_of_string m1), <- (string_of_list_ascii_of_string m2).
  f_equal.
  destruct (list_ascii_of_string m1) as [|a1 [|b1 [|c1 [|d1 l1]]]]; try discriminate H1;
    destruct (list_ascii_of_string m2) as [|a2 [|b2 [|c2 [|d2 l2]]]]; try discriminate H2;
    cbn [tail] in Hnear; injection H1 as H1; injection H2 as H2;
    repeat match goal with
           | H : Forall2 _ (_ :: _) (_ :: _) |- _ => apply Forall2_cons in H as [? H]
           | H : Forall2 _ [] (_ :: _) |- _ => apply Forall2_nil_cons_inv in H; destruct H
           | H : Forall2 _ (_ :: _) [] |- _ => apply Forall2_cons_nil_inv in H; destruct H
           end.
  - assert (chr a1 = chr a2 /\ chr b1 = chr b2) as [Ha Hb] by lia.
    apply chr_inj in Ha, Hb. congruence.
  - assert (chr a1 = chr a2 /\ chr b1 = chr b2 /\ chr c1 = chr c2) as (Ha & Hb & Hc) by lia.
    apply chr_inj in Ha, Hb, Hc. congruence.
Qed.

Lemma mnemonic_code_injective_near_witness : 7426 <> 7717.
Proof.
  apply (mnemonic_code_injective_near "CAL" "FAC" 7426 7717);
    [reflexivity | reflexivity | reflexivity | reflexivity | | discriminate].
  repeat constructor.
Defined.

(** Changing one character of a text always changes its encoding. *)
Theorem mnemonic_code_detects_substitution (m1 m2 : string) (v1 v2 : Z) :
  differ_once (list_ascii_of_string m1) (list_ascii_of_string m2) ->
  mnemonic_code m1 = Some v1 -> mnemonic_code m2 = Some v2 ->
  v1 <> v2.
Proof.
  unfold mnemonic_code. intros (pre & x & y & post & -> & -> & Hxy) H1 H2 Heq.
  subst v2. apply Hxy, chr_inj.
  destruct pre as [|p0 [|p1 [|p2 pre]]]; cbn [app] in H1, H2.
  - destruct post as [|q0 [|q1 [|q2 post]]]; try discriminate H1;
      injection H1 as H1; injection H2 as H2; lia.
  - destruct post as [|q0 [|q1 post]]; try discriminate H1;
      injection H1 as H1; injection H2 as H2; lia.
  - destruct post as [|q0 post]; try discriminate H1;
      injection H1 as H1; injection H2 as H2; lia.
  - destruct pre, post; cbn in H1; discriminate H1.
Qed.

Lemma mnemonic_code_detects_substitution_witness : 9167 <> 9157.
Proof.
  apply (mnemonic_code_detects_substitution "TEM" "TEC" 9167 9157);
    [ exists (list_ascii_of_string "TE"), "M"%char, "C"%char, [];
      repeat split; discriminate
    | reflexivity | reflexivity ].
Defined.

(** Exchanging two different characters of a text always changes its
    encoding. *)
Theorem mnemonic_code_detects_transposition (m1 m2 : string) (v1 v2 : Z) :
  transposed (list_ascii_of_string m1) (list_ascii_of_string m2) ->
  mnemonic_code m1 = Some v1 -> mnemonic_code m2 = Some v2 ->
  v1 <> v2.
Proof.
  unfold mnemonic_code.
  intros (pre & x & mid & y & post & -> & -> & Hxy) H1 H2 Heq.
  subst v2. apply Hxy, chr_inj.
  destruct pre as [|p0 [|p1 pre]]; cbn [app] in H1, H2.
  - destruct mid as [|m0 [|m1' mid]]; cbn [app] in H1, H2.
    + destruct post as [|q0 [|q1 post]]; try discriminate H1;
        injection H1 as H1; injection H2 as H2; lia.
    + destruct post as [|q0 post]; try discriminate H1;
        injection H1 as H1; injection H2 as H2; lia.
    + destruct mid, post; cbn in H1; discriminate H1.
  - destruct mid as [|m0 mid]; cbn [app] in H1, H2.
    + destruct post as [|q0 post]; try discriminate H1;
        injection H1 as H1; injection H2 as H2; lia.
    + destruct mid, post; cbn in H1; discriminate H1.
  - destruct pre as [|? [|? ?]], mid, post; cbn in H1; discriminate H1.
Qed.

Lemma mnemonic_code_detects_transposition_witness : 9114 <> 9123.
Proof.
  apply (mnemonic_code_detects_transposition "RST" "RTS" 9114 9123);
    [ exists ["R"%char], "S"%char, [], "T"%char, [];
      repeat split; discriminate
    | reflexivity | reflexivity ].
Defined.

(** Every mnemonic of the mapping has between LINKBUS_MIN_MSG_LENGTH and 3
    characters, and GO, the shortest message, has exactly
    LINKBUS_MIN_MSG_LENGTH. *)
Theorem table_mnemonic_lengths :
  Forall (fun m => (LINKBUS_MIN_MSG_LENGTH <= String.length m <= 3)%nat) table_mnemonics /\
  ("GO"%string ∈ table_mnemonics) /\
  String.length "GO" = LINKBUS_MIN_MSG_LENGTH.
Proof.
  split; [|split].
  - unfold table_mnemonics, LINKBUS_MIN_MSG_LENGTH. cbn.
    repeat (apply List.Forall_cons; [cbn; lia|]). apply List.Forall_nil.
  - unfold table_mnemonics. cbn. do 6 right. left.
  - reflexivity.
Qed.

(** The serial commands README.md lists, SYN excepted, are mnemonics of the
    mapping, each with an enumerator whose value is its encoding.  SYN has
    no enumerator, and TXE, which has one, is not listed. *)
Theorem README_commands_identified :
  Forall (fun c => c = "SYN"%string \/
            exists id, ((c, id) ∈ mnemonic_table) /\
                       mnemonic_code c = Some (LBMessageID_value id))
         README_commands /\
  ("SYN"%string ∈ README_commands) /\
  mnemonic_code "SYN" = Some 9268 /\
  (forall id, LBMessageID_value id <> 9268) /\
  ("TXE"%string ∈ table_mnemonics) /\ ("TXE"%string ∉ README_commands).
Proof.
  split; [|split; [|split; [|split; [|split]]]].
  - unfold README_commands.
    repeat (constructor;
            [ first [ left; reflexivity
                    | right; eexists; split;
                      [ unfold mnemonic_table;
                        repeat first [apply list_elem_of_here | apply list_elem_of_further]
                      | reflexivity ] ]
            | ]).
    constructor.
  - unfold README_commands. do 4 right. left.
  - reflexivity.
  - intros id. destruct id; discriminate.
  - unfold table_mnemonics. cbn. do 9 right. left.
  - unfold README_commands. intros Hin.
    repeat (apply elem_of_cons in Hin as [Hin|Hin]; [discriminate Hin|]).
    apply elem_of_nil in Hin. exact Hin.
Qed.

(** None of the messages the header comment lists has an enumerator in
    LBMessageID: the encoding of each is the value of no enumerator, and S,
    shorter than LINKBUS_MIN_MSG_LENGTH, has no encoding at all. *)
Theorem comment_mnemonics_unidentified :
  Forall (fun m => (m ∉ table_mnemonics) /\
                   forall id, mnemonic_code m <> Some (LBMessageID_value id))
         comment_mnemonics /\
  mnemonic_code "S" = None /\
  (String.length "S" < LINKBUS_MIN_MSG_LENGTH)%nat.
Proof.
  split; [|split; [reflexivity | unfold LINKBUS_MIN_MSG_LENGTH; cbn; lia]].
  unfold comment_mnemonics.
  repeat (constructor;
          [ split;
            [ unfold table_mnemonics; cbn; intros Hin;
              repeat (apply elem_of_cons in Hin as [Hin|Hin]; [discriminate Hin|]);
              apply elem_of_nil in Hin; exact Hin
            | intros id; destruct id; discriminate ]
          | ]).
  constructor.
Qed.

End Identifiers.

(** ** Fields *)

(** Every LBMessageField names a row of the fields array of a
    LinkbusRxBuffer, different names name different rows, and every row has
    a name. *)
Theorem LBMessageField_indexes_fields :
  (forall f, LBMessageField_value f < LINKBUS_MAX_MSG_NUMBER_OF_FIELDS) /\
  (forall f g, LBMessageField_value f = LBMessageField_value g -> f = g) /\
  (forall i, i < LINKBUS_MAX_MSG_NUMBER_OF_FIELDS ->
             exists f, LBMessageField_value f = i).
Proof.
  unfold LINKBUS_MAX_MSG_NUMBER_OF_FIELDS. split; [|split].
  - intros f. destruct f; cbn; lia.
  - intros f g. destruct f, g; cbn; intros H; first [reflexivity | discriminate H].
  - intros i Hi. destruct i as [|[|[|i]]]; [exists FIELD1 | exists FIELD2 | exists FIELD3 | lia];
      reflexivity.
Qed.

Lemma LBMessageField_indexes_fields_witness :
  exists f, LBMessageField_value f = 2.
Proof.
  apply (proj2 (proj2 LBMessageField_indexes_fields) 2).
  unfold LINKBUS_MAX_MSG_NUMBER_OF_FIELDS. lia.
Defined.

(** ** Broadcast flags *)

Section Broadcasts.
Local Open Scope Z_scope.

Lemma broadcast_flags_disjoint (f g : LBbroadcastType) :
  f <> ALL_BROADCASTS -> g <> ALL_BROADCASTS ->
  Z.land (LBbroadcastType_value f) (LBbroadcastType_value g)
  = if decide (f = g) then LBbroadcastType_value g else 0.
Proof. destruct f, g; intros Hf Hg; try contradiction; reflexivity. Qed.

(** In a mask built with [|] from flags other than ALL_BROADCASTS, the test
    [mask & flag] of such a flag succeeds exactly when the flag was put in:
    the four flags are separate bits. *)
Theorem broadcast_mask_member (l : list LBbroadcastType) (f : LBbroadcastType) :
  f <> ALL_BROADCASTS -> ALL_BROADCASTS ∉ l ->
  (broadcast_enabled (broadcast_mask l) f = true <-> f ∈ l).
Proof.
  intros Hf Hl. unfold broadcast_enabled. rewrite negb_true_iff, Z.eqb_neq.
  induction l as [|g l IH]; cbn [broadcast_mask foldr].
  - split; [intros H; contradiction H; reflexivity|].
    intros H. apply elem_of_nil in H. contradiction.
  - fold (broadcast_mask l).
    assert (Hg : g <> ALL_BROADCASTS) by (intros ->; apply Hl; left).
    assert (Hl' : ALL_BROADCASTS ∉ l) by (intros H; apply Hl; right; exact H).
    specialize (IH Hl').
    rewrite Z.land_lor_distr_l, (broadcast_flags_disjoint g f Hg Hf).
    rewrite elem_of_cons, <- IH. destruct (decide (g = f)) as [->|Hne].
    + split; [auto|]. intros _ H. apply Z.lor_eq_0_iff in H as [H _].
      destruct f; try contradiction; discriminate H.
    + rewrite Z.lor_0_l. split; [auto|]. intros [->|H]; [contradiction | exact H].
Qed.

Lemma broadcast_mask_member_witness :
  broadcast_enabled (broadcast_mask [BATTERY_BROADCAST; RF_BROADCAST]) RF_BROADCAST = true
  <-> RF_BROADCAST ∈ [BATTERY_BROADCAST; RF_BROADCAST].
Proof.
  apply (broadcast_mask_member [BATTERY_BROADCAST; RF_BROADCAST] RF_BROADCAST).
  - discriminate.
  - intros Hin.
    repeat (apply elem_of_cons in Hin as [Hin|Hin]; [discriminate Hin|]).
    apply elem_of_nil in Hin. exact Hin.
Defined.

Lemma broadcast_mask_range (l : list LBbroadcastType) :
  Z.land (broadcast_mask l) 0xFF = broadcast_mask l.
Proof.
  induction l as [|g l IH]; cbn [broadcast_mask foldr]; [reflexivity|].
  fold (broadcast_mask l). rewrite Z.land_lor_distr_l, IH. f_equal.
  destruct g; reflexivity.
Qed.

(** ALL_BROADCASTS covers every mask built from the flags: masking with it
    changes nothing, and once it is in a mask every flag tests as enabled. *)
Theorem ALL_BROADCASTS_covers (l : list LBbroadcastType) (f : LBbroadcastType) :
  Z.land (broadcast_mask l) (LBbroadcastType_value ALL_BROADCASTS) = broadcast_mask l /\
  broadcast_enabled (broadcast_mask (ALL_BROADCASTS :: l)) f = true.
Proof.
  split; [apply broadcast_mask_range|].
  unfold broadcast_enabled. rewrite negb_true_iff, Z.eqb_neq.
  cbn [broadcast_mask foldr]. fold (broadcast_mask l).
  rewrite Z.land_lor_distr_l. intros H. apply Z.lor_eq_0_iff in H as [H _].
  destruct f; discriminate H.
Qed.

(** Clearing a flag with [mask & ~flag] disables that flag and leaves every
    other flag as it was. *)
Theorem broadcast_clear_spec (mask : Z) (f g : LBbroadcastType) :
  f <> ALL_BROADCASTS -> g <> ALL_BROADCASTS ->
  broadcast_enabled (broadcast_clear mask f) g
  = if decide (f = g) then false else broadcast_enabled mask g.
Proof.
  intros Hf Hg. unfold broadcast_enabled, broadcast_clear.
  rewrite <- Z.land_assoc, (Z.land_comm (Z.lnot _)).
  destruct (decide (f = g)) as [->|Hne].
  - rewrite Z.land_lnot_diag, Z.land_0_r. reflexivity.
  - f_equal. f_equal. f_equal.
    destruct f, g; try contradiction; reflexivity.
Qed.

Lemma broadcast_clear_spec_witness :
  broadcast_enabled (broadcast_clear 0x0F RSSI_BROADCAST) RF_BROADCAST
  = if decide (RSSI_BROADCAST = RF_BROADCAST) then false
    else broadcast_enabled 0x0F RF_BROADCAST.
Proof.
  apply (broadcast_clear_spec 0x0F RSSI_BROADCAST RF_BROADCAST); discriminate.
Defined.

End Broadcasts.

(** ** Message lengths *)

Lemma length_format_fields (fields : list (list ascii)) (n : nat) :
  Forall (fun f => length f <= n) fields ->
  length (concat (map (fun f => ","%char :: f) fields)) <= length fields * (1 + n).
Proof.
  induction 1 as [|f fs Hf _ IH]; cbn [map concat length]; [lia|].
  rewrite length_app. cbn [length]. lia.
Qed.

(** A commandline in the format of the header comment, with an identifier of
    at most 3 characters and at most LINKBUS_MAX_MSG_NUMBER_OF_FIELDS fields
    of at most LINKBUS_MAX_MSG_FIELD_LENGTH - 1 characters (one place of a
    field's array being the terminator's), has at most
    LINKBUS_MAX_COMMANDLINE_LENGTH characters. *)
Theorem format_commandline_fits (id : list ascii) (fields : list (list ascii)) :
  length id <= 3 ->
  length fields <= LINKBUS_MAX_MSG_NUMBER_OF_FIELDS ->
  Forall (fun f => length f <= LINKBUS_MAX_MSG_FIELD_LENGTH - 1) fields ->
  length (format_commandline id fields) <= LINKBUS_MAX_COMMANDLINE_LENGTH.
Proof.
  unfold format_commandline, LINKBUS_MAX_COMMANDLINE_LENGTH,
    LINKBUS_MAX_MSG_NUMBER_OF_FIELDS, LINKBUS_MAX_MSG_FIELD_LENGTH.
  intros Hid Hn Hf. rewrite length_app.
  pose proof (length_format_fields fields (10 - 1) Hf). nia.
Qed.

Lemma format_commandline_fits_witness :
  length (format_commandline (list_ascii_of_string "CK0")
            [list_ascii_of_string "704000000"; list_ascii_of_string "1"])
  <= LINKBUS_MAX_COMMANDLINE_LENGTH.
Proof.
  apply (format_commandline_fits (list_ascii_of_string "CK0")
           [list_ascii_of_string "704000000"; list_ascii_of_string "1"]).
  - cbn. lia.
  - unfold LINKBUS_MAX_MSG_NUMBER_OF_FIELDS. cbn. lia.
  - unfold LINKBUS_MAX_MSG_FIELD_LENGTH.
    repeat (apply List.Forall_cons; [cbn; lia|]). apply List.Forall_nil.
Defined.

(** The bound is attained: the limit is no larger than such commandlines
    need. *)
Lemma format_commandline_full :
  length (format_commandline (list_ascii_of_string "CAL")
            (replicate 3 (list_ascii_of_string "123456789")))
  = LINKBUS_MAX_COMMANDLINE_LENGTH.
Proof. reflexivity. Qed.

(** A whole message in that format, sigil and terminator included, fits a
    LinkbusTxBuffer with the NUL that ends a C string, and is within
    LINKBUS_MAX_MSG_LENGTH; with an identifier of at least two characters
    its commandline has at least LINKBUS_MIN_MSG_LENGTH characters. *)
Theorem format_message_fits (sigil terminator : ascii) (id : list ascii)
    (fields : list (list ascii)) :
  2 <= length id <= 3 ->
  length fields <= LINKBUS_MAX_MSG_NUMBER_OF_FIELDS ->
  Forall (fun f => length f <= LINKBUS_MAX_MSG_FIELD_LENGTH - 1) fields ->
  length (format_message sigil id fields terminator) + 1 <= LINKBUS_MAX_TX_MSG_LENGTH /\
  length (format_message sigil id fields terminator) <= LINKBUS_MAX_MSG_LENGTH /\
  LINKBUS_MIN_MSG_LENGTH <= length (format_commandline id fields).
Proof.
  intros [Hid2 Hid3] Hn Hf.
  pose proof (format_commandline_fits id fields Hid3 Hn Hf) as Hfit.
  unfold format_message. cbn [length]. rewrite length_app. cbn [length].
  assert (Hlow : 2 <= length (format_commandline id fields))
    by (unfold format_commandline; rewrite length_app; lia).
  change LINKBUS_MAX_COMMANDLINE_LENGTH with 33 in Hfit.
  change LINKBUS_MAX_TX_MSG_LENGTH with 41. change LINKBUS_MAX_MSG_LENGTH with 50.
  change LINKBUS_MIN_MSG_LENGTH with 2. lia.
Qed.

Lemma format_message_fits_witness :
  length (format_message "$" (list_ascii_of_string "GO") [] ";") + 1
    <= LINKBUS_MAX_TX_MSG_LENGTH /\
  length (format_message "$" (list_ascii_of_string "GO") [] ";")
    <= LINKBUS_MAX_MSG_LENGTH /\
  LINKBUS_MIN_MSG_LENGTH <= length (format_commandline (list_ascii_of_string "GO") []).
Proof.
  apply (format_message_fits "$" ";" (list_ascii_of_string "GO") []).
  - cbn. lia.
  - unfold LINKBUS_MAX_MSG_NUMBER_OF_FIELDS. cbn. lia.
  - apply List.Forall_nil.
Defined.
